(** * A shallow embedding of the BPE tokenizer (bpe_tokenizer/tokenizer.py)

  The development follows the Python source function by function.
  Python [str] values are lists of Unicode code points, the ordered
  dictionaries ([dict], [Counter], [defaultdict]) are association lists in
  insertion order, the [set] of vocabulary symbols is a [gset], and the
  tokenizer object is a record that every method receives and returns. *)

From Stdlib Require Import ZArith List Lia String Ascii.
From stdpp Require Import base numbers list gmap sorting.

#[local] Set Warnings "-clear-no-such-hyp".

Local Open Scope Z_scope.

(** ** Python strings *)

Module PyStr.

(** A code point. *)
Abbreviation char := N (only parsing).

(** A Python [str]: the sequence of its code points. *)
Abbreviation str := (list N) (only parsing).

(** An ASCII literal as a [str]. *)
Definition lit (s : string) : str :=
  map N_of_ascii (list_ascii_of_string s).

Definition SPACE : char := 32%N.

(** [str.isspace] on one code point: the characters that [str.split()] and
    [str.strip()] treat as whitespace (U+0009..U+000D, U+001C..U+0020,
    U+0085, U+00A0, U+1680, U+2000..U+200A, U+2028, U+2029, U+202F,
    U+205F, U+3000). *)
Definition isspace (c : char) : bool :=
  ((9 <=? c) && (c <=? 13) || (28 <=? c) && (c <=? 32)
   || (c =? 133) || (c =? 160) || (c =? 5760)
   || (8192 <=? c) && (c <=? 8202)
   || (c =? 8232) || (c =? 8233) || (c =? 8239) || (c =? 8287)
   || (c =? 12288))%N.

(** [s.lstrip()], [s.rstrip()] and [s.strip()]. *)
Fixpoint lstrip (s : str) : str :=
  match s with
  | c :: r => if isspace c then lstrip r else s
  | [] => []
  end.

Definition rstrip (s : str) : str := rev (lstrip (rev s)).

Definition strip (s : str) : str := rstrip (lstrip s).

(** [s.split()]: the maximal runs of non-whitespace characters, in order.
    [cur] is the run being read. *)
Fixpoint split_go (cur : str) (s : str) : list str :=
  match s with
  | [] => match cur with [] => [] | _ => [cur] end
  | c :: r =>
      if isspace c
      then match cur with [] => split_go [] r | _ => cur :: split_go [] r end
      else split_go (cur ++ [c]) r
  end.

Definition split (s : str) : list str := split_go [] s.

(** [sep.join(parts)]. *)
Fixpoint join (sep : str) (parts : list str) : str :=
  match parts with
  | [] => []
  | [p] => p
  | p :: rest => p ++ sep ++ join sep rest
  end.

(** [s.replace(old, new)] for one-character [old] and [new]. *)
Definition replace (old new : char) (s : str) : str :=
  map (fun c => if (c =? old)%N then new else c) s.

(** [s.endswith(suffix)]. *)
Definition endswith (s suffix : str) : bool :=
  bool_decide (drop (length s - length suffix) s = suffix).

(** [s[:-n]] for [n > 0]. *)
Definition drop_last (n : nat) (s : str) : str := take (length s - n) s.

(** The order of [str] comparison: code point by code point, a proper
    prefix first. *)
Fixpoint str_leb (a b : str) : bool :=
  match a, b with
  | [], _ => true
  | _ :: _, [] => false
  | x :: a', y :: b' =>
      if (x <? y)%N then true
      else if (x =? y)%N then str_leb a' b' else false
  end.

Definition str_le (a b : str) : Prop := str_leb a b = true.

Definition str_lt (a b : str) : Prop := str_le a b /\ a <> b.

#[global] Instance str_le_dec a b : Decision (str_le a b) :=
  decide (str_leb a b = true).

(** [sorted(xs)] on strings. *)
Definition sorted (xs : list str) : list str := merge_sort str_le xs.

End PyStr.

(** ** Insertion-ordered dictionaries *)

Module PyDict.

(** Keys are unique and kept in insertion order. *)
Abbreviation dict K V := (list (K * V)) (only parsing).

Section dict.
Context {K V : Type} `{EqDecision K}.

(** [d.get(k)] *)
Fixpoint get (k : K) (d : dict K V) : option V :=
  match d with
  | [] => None
  | (k', v) :: r => if decide (k' = k) then Some v else get k r
  end.

(** [d[k] = v]: the value of a present key is replaced where it stands,
    a new key goes last. *)
Fixpoint set (k : K) (v : V) (d : dict K V) : dict K V :=
  match d with
  | [] => [(k, v)]
  | (k', v') :: r =>
      if decide (k' = k) then (k, v) :: r else (k', v') :: set k v r
  end.

Definition keys (d : dict K V) : list K := map fst d.

(** [{k: v for k, v in items}] *)
Definition of_items (items : list (K * V)) : dict K V :=
  fold_left (fun d kv => set (fst kv) (snd kv) d) items [].

(** [not d] *)
Definition is_empty (d : dict K V) : bool :=
  match d with [] => true | _ => false end.

(** [k in d] is decidable. *)
#[global] Instance In_dec (k : K) (ks : list K) : Decision (In k ks) :=
  in_dec (fun x y => decide (x = y)) k ks.
End dict.

(** [c[k] += n] on a [Counter] or a [defaultdict(int)]. *)
Definition add {K} `{EqDecision K} (k : K) (n : Z) (c : list (K * Z))
  : list (K * Z) :=
  set k (default 0 (get k c) + n) c.

End PyDict.

Import PyStr.

(** ** The tokenizer *)

Module BPE.

Abbreviation Pair := (str * str)%type (only parsing).
Abbreviation Word := (list str) (only parsing).

(** The end-of-word marker ["</w>"] and the word-start marker U+2581. *)
Definition EOW : str := lit "</w>".
Definition WORD_START : char := 9601%N.

Inductive Error :=
| ValueError (msg : string)
| RuntimeError (msg : string)
| KeyError (key : str).

(** The three errors of the source, under the names the specification gives
    them. *)
Definition InvalidArgument : Error :=
  ValueError "vocab_size must be at least 2".
Definition EmptyInput : Error :=
  ValueError "Corpus is empty and cannot be used for training".
Definition NotTrained : Error :=
  RuntimeError "Tokenizer has not been trained".

(** What a call does: it returns, raises, or (in the model only) uses up
    the fuel of a [while] loop. *)
Inductive outcome (A : Type) :=
| Return (a : A)
| Raise (e : Error)
| OutOfFuel.
Arguments Return {A} a.
Arguments Raise {A} e.
Arguments OutOfFuel {A}.

(** The dataclass [BPETokenizer]. *)
Record BPETokenizer := mkTokenizer {
  unk_token : str;
  merges : list Pair;
  vocab : PyDict.dict str Z
}.

(** [BPETokenizer()] *)
Definition new_tokenizer : BPETokenizer :=
  {| unk_token := lit "<unk>"; merges := []; vocab := [] |}.

(** The concatenation of the two symbols, [join] of line 65 (and of lines
    118 and 135) with the empty separator. *)
Definition bigram_of (pair : Pair) : str := fst pair ++ snd pair.

(** [[f"▁{w}" for w in text.strip().split() if w]] *)
Definition words_of (text : str) : list str :=
  map (cons WORD_START)
      (filter (fun w => w <> []) (split (strip text))).

(** [list(word) + ["</w>"]] *)
Definition symbols_of (word : str) : Word :=
  map (fun c => [c]) word ++ [EOW].

(** *** [_apply_merge] *)

(** The [while i < len(symbols)] loop; [fuel] bounds the iterations, and
    [length symbols] of it is enough since [i] grows in every one.
    [length symbols - 1] stops at 0 where Python has -1 for the empty
    list: the loop is not entered then. *)
Fixpoint apply_loop (fuel : nat) (symbols : list str) (pair : Pair)
  (bigram : str) (i : nat) (merged : list str) : list str :=
  if (i <? length symbols)%nat then
    match fuel with
    | O => merged
    | S fuel' =>
        if (i <? length symbols - 1)%nat
           && bool_decide ((nth i symbols [], nth (i + 1) symbols []) = pair)
        then apply_loop fuel' symbols pair bigram (i + 2) (merged ++ [bigram])
        else apply_loop fuel' symbols pair bigram (i + 1)
               (merged ++ [nth i symbols []])
    end
  else merged.

Definition _apply_merge (symbols : list str) (pair : Pair) : list str :=
  apply_loop (length symbols) symbols pair (bigram_of pair) 0 [].

(** *** [_merge_vocab] *)

(** The inner [while i < len(word)] loop of [_merge_vocab]. *)
Fixpoint merge_word_loop (fuel : nat) (word : Word) (pair : Pair)
  (bigram : str) (i : nat) (merged_word : list str) : list str :=
  if (i <? length word)%nat then
    match fuel with
    | O => merged_word
    | S fuel' =>
        if (i <? length word - 1)%nat
           && bool_decide ((nth i word [], nth (i + 1) word []) = pair)
        then merge_word_loop fuel' word pair bigram (i + 2)
               (merged_word ++ [bigram])
        else merge_word_loop fuel' word pair bigram (i + 1)
               (merged_word ++ [nth i word []])
    end
  else merged_word.

Definition _merge_vocab (pair : Pair) (word_freqs : PyDict.dict Word Z)
  : PyDict.dict Word Z :=
  let bigram := bigram_of pair in
  fold_left
    (fun merged_vocab wf =>
       PyDict.add (merge_word_loop (length (fst wf)) (fst wf) pair bigram 0 [])
         (snd wf) merged_vocab)
    word_freqs [].

(** *** [_get_stats] *)

(** ["</w>" in pair] *)
Definition has_eow (pair : Pair) : bool :=
  bool_decide (fst pair = EOW) || bool_decide (snd pair = EOW).

(** [(word[i], word[i + 1])] *)
Definition pair_at (word : Word) (i : nat) : Pair :=
  (nth i word [], nth (i + 1) word []).

Definition _get_stats (word_freqs : PyDict.dict Word Z)
  : PyDict.dict Pair Z :=
  fold_left
    (fun stats wf =>
       fold_left
         (fun stats i =>
            let pair := pair_at (fst wf) i in
            if has_eow pair then stats else PyDict.add pair (snd wf) stats)
         (seq 0 (length (fst wf) - 1)) stats)
    word_freqs [].

(** [max(stats, key=stats.get)] keeps the first key, in insertion order,
    whose count no later key exceeds: [best] is replaced only by a key
    with a strictly larger count. *)
Fixpoint max_from (best : Pair) (best_count : Z) (rest : PyDict.dict Pair Z)
  : Pair :=
  match rest with
  | [] => best
  | (k, v) :: rest' =>
      if best_count <? v then max_from k v rest'
      else max_from best best_count rest'
  end.

(** [None] is the case of an empty [stats], where line 60 leaves the loop
    before [max] is called. *)
Definition max_key (stats : PyDict.dict Pair Z) : option Pair :=
  match stats with
  | [] => None
  | (k, v) :: rest => Some (max_from k v rest)
  end.

(** *** [train] *)

(** The body of the loop over the corpus, lines 42-47. *)
Definition count_step (word_freqs : PyDict.dict Word Z) (line : str)
  : PyDict.dict Word Z :=
  match words_of line with
  | [] => word_freqs
  | words =>
      fold_left
        (fun word_freqs word => PyDict.add (symbols_of word) 1 word_freqs)
        words word_freqs
  end.

(** The word table of lines 40-47. *)
Definition count_words (corpus : list str) : PyDict.dict Word Z :=
  fold_left count_step corpus [].

(** The symbol set of lines 54-56. *)
Definition initial_symbols (unk : str) (word_freqs : PyDict.dict Word Z)
  : gset str :=
  fold_left
    (fun vocab_symbols wf =>
       vocab_symbols ∪
       list_to_set (filter (fun symbol => symbol <> EOW) (fst wf)))
    word_freqs {[ unk ]}.

(** The [while len(vocab_symbols) < vocab_size] loop of lines 58-66, on the
    three variables it updates; [max_key stats = None] is the [break] of
    line 61.  The result [None] means the fuel ran out. *)
Fixpoint merge_loop (fuel : nat) (vocab_size : Z) (merges : list Pair)
  (word_freqs : PyDict.dict Word Z) (vocab_symbols : gset str)
  : option (list Pair * PyDict.dict Word Z * gset str) :=
  if Z.of_nat (size vocab_symbols) <? vocab_size then
    let stats := _get_stats word_freqs in
    match max_key stats with
    | None => Some (merges, word_freqs, vocab_symbols)
    | Some best =>
        match fuel with
        | O => None
        | S fuel' =>
            merge_loop fuel' vocab_size (merges ++ [best])
              (_merge_vocab best word_freqs)
              (vocab_symbols ∪ {[ bigram_of best ]})
        end
    end
  else Some (merges, word_freqs, vocab_symbols).

(** The number of symbols in the table: every merge step lowers it, so it
    is fuel enough for [merge_loop]. *)
Definition table_size (word_freqs : PyDict.dict Word Z) : nat :=
  list_sum (map (fun wf => length (fst wf)) word_freqs).

(** [enumerate(xs)] with the pairs turned as the comprehension needs them. *)
Definition enumerate_vocab (ordered_vocab : list str) : list (str * Z) :=
  imap (fun idx token => (token, Z.of_nat idx)) ordered_vocab.

(** Lines 68-69. *)
Definition ordered_vocab_of (unk : str) (vocab_symbols : gset str)
  : list str :=
  unk :: sorted (elements (vocab_symbols ∖ {[ unk ]})).

Definition train (self : BPETokenizer) (corpus : list str) (vocab_size : Z)
  : outcome unit * BPETokenizer :=
  if vocab_size <? 2 then (Raise InvalidArgument, self)
  else
    let word_freqs := count_words corpus in
    if PyDict.is_empty word_freqs then (Raise EmptyInput, self)
    else
      let self := {| unk_token := unk_token self; merges := [];
                     vocab := vocab self |} in
      let vocab_symbols := initial_symbols (unk_token self) word_freqs in
      match merge_loop (table_size word_freqs) vocab_size (merges self)
              word_freqs vocab_symbols with
      | None => (OutOfFuel, self)
      | Some (merges', _, vocab_symbols) =>
          let ordered_vocab :=
            ordered_vocab_of (unk_token self) vocab_symbols in
          (Return tt,
           {| unk_token := unk_token self; merges := merges';
              vocab := PyDict.of_items (enumerate_vocab ordered_vocab) |})
      end.

(** *** [encode] *)

(** Line 87: a trailing ["</w>"] is cut off the symbol. *)
Definition clean_symbol (symbol : str) : str :=
  if endswith symbol EOW then drop_last 4 symbol else symbol.

Definition apply_merges (merges : list Pair) (symbols : list str)
  : list str :=
  fold_left _apply_merge merges symbols.

(** The symbols one word contributes ids for: those left after every merge,
    the ones equal to ["</w>"] skipped. *)
Definition word_symbols (self : BPETokenizer) (word : str) : list str :=
  filter (fun symbol => symbol <> EOW)
    (apply_merges (merges self) (symbols_of word)).

(** Line 88 once [self.vocab[self.unk_token]] has given [unk_id]. *)
Definition token_id (self : BPETokenizer) (unk_id : Z) (symbol : str) : Z :=
  default unk_id (PyDict.get (clean_symbol symbol) (vocab self)).

Definition encode (self : BPETokenizer) (text : str) : outcome (list Z) :=
  if PyDict.is_empty (vocab self) then Raise NotTrained
  else
    fold_left
      (fun acc word =>
         fold_left
           (fun acc symbol =>
              match acc with
              | Return token_ids =>
                  match PyDict.get (unk_token self) (vocab self) with
                  | None => Raise (KeyError (unk_token self))
                  | Some unk_id =>
                      Return (token_ids ++ [token_id self unk_id symbol])
                  end
              | other => other
              end)
           (word_symbols self word) acc)
      (words_of text) (Return []).

(** The ids [encode] returns once the guard has passed and the unknown
    token has an id. *)
Definition encoded (self : BPETokenizer) (unk_id : Z) (text : str) : list Z :=
  flat_map (fun word => map (token_id self unk_id) (word_symbols self word))
    (words_of text).

(** *** [decode] *)

(** [{idx: token for token, idx in self.vocab.items()}] *)
Definition inverse_vocab (self : BPETokenizer) : PyDict.dict Z str :=
  PyDict.of_items (map (fun ti => (snd ti, fst ti)) (vocab self)).

(** [inverse_vocab.get(idx, self.unk_token)] *)
Definition token_of (self : BPETokenizer) (idx : Z) : str :=
  default (unk_token self) (PyDict.get idx (inverse_vocab self)).

Definition decode (self : BPETokenizer) (token_ids : list Z) : outcome str :=
  if PyDict.is_empty (vocab self) then Raise NotTrained
  else
    let pieces :=
      fold_left (fun pieces idx => pieces ++ [token_of self idx])
        token_ids [] in
    let text := concat pieces in
    Return (strip (replace WORD_START SPACE text)).

(** What holds of the word table all through training: every word is a
    training word cut into symbols, with the marker at its end. *)
Definition table_from (corpus : list str) (word_freqs : PyDict.dict Word Z)
  : Prop :=
  forall word,
    In word (PyDict.keys word_freqs) ->
    exists body line,
      word = body ++ [EOW]
      /\ In line corpus /\ In (concat body) (words_of line).

(** The state a normal return of [train] leaves: the vocabulary numbers a
    duplicate-free list of symbols that starts with the unknown token. *)
Definition numbered (self : BPETokenizer) (ordered : list str) : Prop :=
  NoDup ordered /\ head ordered = Some (unk_token self)
  /\ vocab self = enumerate_vocab ordered.

End BPE.

Import BPE.

(** ** The specification's side *)

Module Spec.

(** Section 4.2 of the specification: scan left to right; where two
    adjacent symbols equal the pair, emit their concatenation and go on
    past both, otherwise emit the symbol and go on by one. *)
Fixpoint greedy_scan (pair : Pair) (symbols : list str) : list str :=
  match symbols with
  | [] => []
  | a :: rest =>
      match rest with
      | [] => [a]
      | b :: rest' =>
          if bool_decide ((a, b) = pair)
          then (fst pair ++ snd pair) :: greedy_scan pair rest'
          else a :: greedy_scan pair rest
      end
  end.

(** Runs of whitespace collapse to single spaces; [in_run] tells that the
    previous character was whitespace. *)
Fixpoint collapse_ws (in_run : bool) (s : str) : str :=
  match s with
  | [] => []
  | c :: r =>
      if isspace c
      then (if in_run then collapse_ws true r else SPACE :: collapse_ws true r)
      else c :: collapse_ws false r
  end.

(** Whitespace normalization: runs collapsed, then leading and trailing
    whitespace removed. *)
Definition normalize_ws (text : str) : str :=
  strip (collapse_ws false text).

(** The corpus yields at least one non-empty word after whitespace
    splitting. *)
Definition usable (corpus : list str) : Prop :=
  exists line w, In line corpus /\ In w (split (strip line)) /\ w <> [].

(** A word that holds neither the word-start marker nor the text of the
    end-of-word marker. *)
Definition contains_eow (w : str) : Prop :=
  exists pre post, w = pre ++ EOW ++ post.

Definition plain_word (w : str) : Prop :=
  ~ In WORD_START w /\ ~ contains_eow w.

(** The symbols of the training words, at any stage of training: the
    end-of-word marker, the characters of the words, and the concatenation
    of every learned merge. *)
Definition occurs_in_training (corpus : list str) (merges : list Pair)
  (s : str) : Prop :=
  s = EOW
  \/ (exists line word c,
        In line corpus /\ In word (words_of line) /\ In c word /\ s = [c])
  \/ (exists pair, In pair merges /\ s = bigram_of pair).

End Spec.

Import Spec.

(** ** Quantities of the word table and the statistics *)

Module Measures.

(** The sum of the counts of a [Counter]. *)
Definition values_sum {K : Type} (c : PyDict.dict K Z) : Z :=
  fold_right Z.add 0 (map snd c).

(** At how many positions [i] of [range(len(word) - 1)] the pair
    [(word[i], word[i + 1])] is [pair]. *)
Definition count_pair (pair : Pair) (word : Word) : Z :=
  Z.of_nat
    (length
       (filter (fun i => pair_at word i = pair)
          (seq 0 (length word - 1)))).

(** The count line 113 builds up for [pair] over the whole table. *)
Definition pair_total (pair : Pair) (word_freqs : PyDict.dict Word Z) : Z :=
  fold_right
    (fun wf total => snd wf * count_pair pair (fst wf) + total)
    0 word_freqs.

(** How often the marked word [word] occurs in the lines of the corpus. *)
Definition occurrences (word : str) (corpus : list str) : Z :=
  Z.of_nat
    (length (filter (fun w => w = word) (flat_map words_of corpus))).

End Measures.

Import Measures.

(** ** Sample inputs *)

(** A tokenizer that already holds merges and a vocabulary. *)
Definition used_tokenizer : BPETokenizer :=
  {| unk_token := lit "<unk>";
     merges := [(lit "a", lit "b")];
     vocab := [(lit "<unk>", 0); (lit "ab", 1)] |}.

(** * Properties *)

(** ** One merge is one greedy pass *)

Section greedy.

Lemma drop_nth_cons (l : list str) (i : nat) :
  (i < length l)%nat -> drop i l = nth i l [] :: drop (S i) l.
Proof.
  revert i. induction l as [|x l IH]; intros [|i] Hi; simpl in *; try lia.
  - by rewrite drop_0.
  - apply IH. lia.
Qed.

Lemma apply_loop_scan fuel symbols pair i merged :
  (length symbols - i <= fuel)%nat ->
  apply_loop fuel symbols pair (bigram_of pair) i merged
  = merged ++ greedy_scan pair (drop i symbols).
Proof.
  revert i merged. induction fuel as [|fuel IH]; intros i merged Hfuel.
  - simpl. destruct (Nat.ltb_spec i (length symbols)); [lia|].
    rewrite drop_ge by lia. by rewrite app_nil_r.
  - simpl. destruct (Nat.ltb_spec i (length symbols)) as [Hi|Hi].
    2:{ rewrite drop_ge by lia. by rewrite app_nil_r. }
    rewrite (drop_nth_cons symbols i Hi).
    destruct (Nat.ltb_spec i (length symbols - 1)) as [Hi'|Hi']; simpl.
    + rewrite (drop_nth_cons symbols (S i)) by lia.
      replace (i + 1)%nat with (S i) by lia.
      case_bool_decide as Heq.
      * rewrite IH by lia. rewrite <- app_assoc. simpl.
        replace (i + 2)%nat with (S (S i)) by lia. reflexivity.
      * rewrite IH by lia. rewrite <- app_assoc. simpl.
        rewrite (drop_nth_cons symbols (S i)) by lia. reflexivity.
    + rewrite IH by lia. rewrite <- app_assoc. simpl.
      replace (i + 1)%nat with (S i) by lia.
      rewrite (drop_ge symbols (S i)) by lia. reflexivity.
Qed.

Lemma merge_word_loop_scan fuel word pair i merged_word :
  (length word - i <= fuel)%nat ->
  merge_word_loop fuel word pair (bigram_of pair) i merged_word
  = merged_word ++ greedy_scan pair (drop i word).
Proof.
  revert i merged_word. induction fuel as [|fuel IH]; intros i acc Hfuel.
  - simpl. destruct (Nat.ltb_spec i (length word)); [lia|].
    rewrite drop_ge by lia. by rewrite app_nil_r.
  - simpl. destruct (Nat.ltb_spec i (length word)) as [Hi|Hi].
    2:{ rewrite drop_ge by lia. by rewrite app_nil_r. }
    rewrite (drop_nth_cons word i Hi).
    destruct (Nat.ltb_spec i (length word - 1)) as [Hi'|Hi']; simpl.
    + rewrite (drop_nth_cons word (S i)) by lia.
      replace (i + 1)%nat with (S i) by lia.
      case_bool_decide as Heq.
      * rewrite IH by lia. rewrite <- app_assoc. simpl.
        replace (i + 2)%nat with (S (S i)) by lia. reflexivity.
      * rewrite IH by lia. rewrite <- app_assoc. simpl.
        rewrite (drop_nth_cons word (S i)) by lia. reflexivity.
    + rewrite IH by lia. rewrite <- app_assoc. simpl.
      replace (i + 1)%nat with (S i) by lia.
      rewrite (drop_ge word (S i)) by lia. reflexivity.
Qed.

Lemma apply_merge_scan symbols pair :
  _apply_merge symbols pair = greedy_scan pair symbols.
Proof.
  unfold _apply_merge. rewrite apply_loop_scan by lia. by rewrite drop_0.
Qed.

Lemma merge_vocab_scan_from pair word_freqs acc :
  fold_left
    (fun merged_vocab wf =>
       PyDict.add
         (merge_word_loop (length (fst wf)) (fst wf) pair (bigram_of pair) 0 [])
         (snd wf) merged_vocab)
    word_freqs acc
  = fold_left
      (fun merged_vocab wf =>
         PyDict.add (greedy_scan pair (fst wf)) (snd wf) merged_vocab)
      word_freqs acc.
Proof.
  revert acc. induction word_freqs as [|[w f] l IH]; intros acc; simpl; [done|].
  rewrite merge_word_loop_scan by lia. rewrite drop_0. simpl. apply IH.
Qed.

Lemma merge_vocab_scan pair word_freqs :
  _merge_vocab pair word_freqs
  = fold_left
      (fun merged_vocab wf =>
         PyDict.add (greedy_scan pair (fst wf)) (snd wf) merged_vocab)
      word_freqs [].
Proof. apply merge_vocab_scan_from. Qed.

End greedy.

(** ** Dictionaries *)

Section dict_facts.
Context {K V : Type} `{EqDecision K}.
Implicit Types (d : PyDict.dict K V) (k : K) (v : V).

Lemma get_set_eq k v d : PyDict.get k (PyDict.set k v d) = Some v.
Proof.
  induction d as [|[k' v'] d IH]; simpl.
  - by rewrite decide_True.
  - destruct (decide (k' = k)) as [->|Hne]; simpl.
    + by rewrite decide_True.
    + by rewrite decide_False.
Qed.

Lemma get_set_ne k k' v d :
  k <> k' -> PyDict.get k' (PyDict.set k v d) = PyDict.get k' d.
Proof.
  intros Hne. induction d as [|[k0 v0] d IH]; simpl.
  - by rewrite decide_False.
  - destruct (decide (k0 = k)) as [->|Hne0]; simpl.
    + by rewrite !decide_False.
    + by rewrite IH.
Qed.

Lemma in_keys_set k k' v d :
  In k' (PyDict.keys (PyDict.set k v d)) <-> k' = k \/ In k' (PyDict.keys d).
Proof.
  induction d as [|[k0 v0] d IH]; simpl.
  - intuition.
  - destruct (decide (k0 = k)) as [->|Hne0]; simpl; intuition.
Qed.

Lemma set_not_nil k v d : PyDict.set k v d <> [].
Proof. destruct d as [|[k' v'] d]; simpl; [done|]. by destruct (decide _). Qed.

Lemma get_None k d : PyDict.get k d = None <-> ~ In k (PyDict.keys d).
Proof.
  induction d as [|[k' v'] d IH]; simpl; [intuition|].
  destruct (decide (k' = k)) as [->|Hne]; [|intuition].
  split; [done|]. intros Hn. destruct Hn. by left.
Qed.

Lemma get_Some_in k v d : PyDict.get k d = Some v -> In (k, v) d.
Proof.
  induction d as [|[k' v'] d IH]; simpl; [done|].
  destruct (decide (k' = k)) as [->|Hne]; [|by right; apply IH].
  intros [= ->]. by left.
Qed.

Lemma in_keys_get k d : In k (PyDict.keys d) -> exists v, PyDict.get k d = Some v.
Proof.
  intros Hin. destruct (PyDict.get k d) as [v|] eqn:E; [by exists v|].
  by apply get_None in E.
Qed.

Lemma set_fresh k v d :
  ~ In k (PyDict.keys d) -> PyDict.set k v d = d ++ [(k, v)].
Proof.
  induction d as [|[k' v'] d IH]; simpl; [done|].
  intros Hn. destruct (decide (k' = k)) as [->|Hne]; [tauto|].
  rewrite IH; [done|tauto].
Qed.

Lemma of_items_from (items : list (K * V)) d :
  NoDup (PyDict.keys d ++ map fst items) ->
  fold_left (fun d kv => PyDict.set (fst kv) (snd kv) d) items d = d ++ items.
Proof.
  revert d. induction items as [|[k v] items IH]; intros d Hnd; simpl.
  - by rewrite app_nil_r.
  - simpl in Hnd. rewrite set_fresh.
    + rewrite IH.
      * by rewrite <- app_assoc.
      * unfold PyDict.keys in *. rewrite map_app. simpl.
        rewrite <- app_assoc. exact Hnd.
    + apply NoDup_app in Hnd as (_ & Hd & _). intros Hin.
      apply (Hd k); [by apply list_elem_of_In|]. by left.
Qed.

Lemma of_items_NoDup (items : list (K * V)) :
  NoDup (map fst items) -> PyDict.of_items items = items.
Proof. intros Hnd. unfold PyDict.of_items. by rewrite of_items_from. Qed.

End dict_facts.

Lemma in_keys_add {K} `{EqDecision K} (k k' : K) n (c : list (K * Z)) :
  In k' (PyDict.keys (PyDict.add k n c)) <-> k' = k \/ In k' (PyDict.keys c).
Proof. apply in_keys_set. Qed.

Lemma add_not_nil {K} `{EqDecision K} (k : K) n (c : list (K * Z)) :
  PyDict.add k n c <> [].
Proof. apply set_not_nil. Qed.

(** ** Facts about the greedy pass *)

Section scan_facts.

Lemma scan_ind (P : list str -> Prop) :
  P [] -> (forall a, P [a]) ->
  (forall a b l, P l -> P (b :: l) -> P (a :: b :: l)) ->
  forall l, P l.
Proof.
  intros H0 H1 H2 l.
  enough (P l /\ forall a, P (a :: l)) by tauto.
  induction l as [|b l [IH1 IH2]]; split; auto.
Qed.

Lemma scan_length_le (p : Pair) l : (length (greedy_scan p l) <= length l)%nat.
Proof.
  induction l as [| |a b l IH1 IH2] using scan_ind; simpl; try lia.
  case_bool_decide; simpl in *; lia.
Qed.

Lemma scan_cons2 (p : Pair) a b l :
  greedy_scan p (a :: b :: l)
  = if bool_decide ((a, b) = p) then bigram_of p :: greedy_scan p l
    else a :: greedy_scan p (b :: l).
Proof. reflexivity. Qed.

Lemma scan_shrinks (p : Pair) l i :
  (i < length l - 1)%nat -> pair_at l i = p ->
  (length (greedy_scan p l) < length l)%nat.
Proof.
  unfold pair_at.
  revert i. induction l as [| |a b l IH1 IH2] using scan_ind;
    intros i Hi Hp; simpl in Hi; try lia.
  rewrite scan_cons2. case_bool_decide as Hab; cbn [length].
  - pose proof (scan_length_le p l). lia.
  - destruct i as [|i]; [simpl in Hp; congruence|].
    specialize (IH2 i). cbn [length] in IH2.
    enough (length (greedy_scan p (b :: l)) < S (length l))%nat by lia.
    apply IH2; [lia|]. exact Hp.
Qed.

Lemma scan_concat (p : Pair) l : concat (greedy_scan p l) = concat l.
Proof.
  induction l as [| |a b l IH1 IH2] using scan_ind; simpl; try done.
  case_bool_decide as Hab; simpl.
  - rewrite IH1. subst p. simpl. by rewrite <- app_assoc.
  - simpl in IH2. by rewrite IH2.
Qed.

Lemma scan_in (p : Pair) l s :
  In s (greedy_scan p l) -> In s l \/ s = bigram_of p.
Proof.
  induction l as [| |a b l IH1 IH2] using scan_ind; simpl; try tauto.
  case_bool_decide as Hab; simpl.
  - intros [<-|Hin]; [by right|]. destruct (IH1 Hin); auto.
  - intros [<-|Hin]; [by left; left|]. simpl in IH2.
    destruct (IH2 Hin) as [[?|?]|?]; auto.
Qed.

Lemma scan_snoc (p : Pair) l e :
  snd p <> e -> greedy_scan p (l ++ [e]) = greedy_scan p l ++ [e].
Proof.
  intros Hne.
  induction l as [| |a b l IH1 IH2] using scan_ind; simpl; try done.
  - case_bool_decide as Hab; [|done]. subst p. by destruct Hne.
  - case_bool_decide as Hab; simpl.
    + by rewrite IH1.
    + simpl in IH2. by rewrite IH2.
Qed.

End scan_facts.

(** ** Pair statistics *)

Section stats_facts.

Lemma in_stats_word (word : Word) (freq : Z) idxs (stats : PyDict.dict Pair Z) p :
  In p (PyDict.keys
          (fold_left
             (fun stats i =>
                let pair := pair_at word i in
                if has_eow pair then stats else PyDict.add pair freq stats)
             idxs stats))
  <-> In p (PyDict.keys stats)
      \/ exists i, In i idxs /\ p = pair_at word i /\ has_eow p = false.
Proof.
  revert stats. induction idxs as [|i idxs IH]; intros stats; simpl.
  - split; [auto|]. intros [?|(i & [] & _)]; done.
  - rewrite IH. clear IH.
    destruct (has_eow (pair_at word i)) eqn:E.
    + split.
      * intros [?|(j & ? & ? & ?)]; [by left|]. right. exists j. auto.
      * intros [?|(j & [<-|?] & -> & ?)]; [by left|congruence|].
        right. exists j. auto.
    + rewrite in_keys_add. split.
      * intros [[->|?]|(j & ? & ? & ?)]; [|by left|].
        -- right. exists i. auto.
        -- right. exists j. auto.
      * intros [?|(j & [<-|?] & -> & ?)]; [tauto|tauto|].
        right. exists j. auto.
Qed.

Lemma in_get_stats_from (word_freqs : PyDict.dict Word Z) stats p :
  In p (PyDict.keys
          (fold_left
             (fun stats wf =>
                fold_left
                  (fun stats i =>
                     let pair := pair_at (fst wf) i in
                     if has_eow pair then stats
                     else PyDict.add pair (snd wf) stats)
                  (seq 0 (length (fst wf) - 1)) stats)
             word_freqs stats))
  <-> In p (PyDict.keys stats)
      \/ exists word freq i,
           In (word, freq) word_freqs /\ (i < length word - 1)%nat
           /\ p = pair_at word i /\ has_eow p = false.
Proof.
  revert stats. induction word_freqs as [|[w f] l IH]; intros stats; simpl.
  - split; [auto|]. intros [?|(? & ? & ? & [] & _)]; done.
  - rewrite IH, in_stats_word. clear IH. split.
    + intros [[?|(i & Hi & ? & ?)]|(w' & f' & i & ? & ? & ? & ?)].
      * by left.
      * right. exists w, f, i. apply in_seq in Hi. repeat split; auto. lia.
      * right. exists w', f', i. auto.
    + intros [?|(w' & f' & i & [[= <- <-]|?] & ? & ? & ?)].
      * by left; left.
      * left; right. exists i. rewrite in_seq. repeat split; auto; lia.
      * right. exists w', f', i. auto.
Qed.

Lemma in_get_stats word_freqs p :
  In p (PyDict.keys (_get_stats word_freqs))
  <-> exists word freq i,
        In (word, freq) word_freqs /\ (i < length word - 1)%nat
        /\ p = pair_at word i /\ has_eow p = false.
Proof.
  unfold _get_stats. rewrite in_get_stats_from. simpl. tauto.
Qed.

Lemma has_eow_false p : has_eow p = false <-> fst p <> EOW /\ snd p <> EOW.
Proof.
  unfold has_eow. rewrite orb_false_iff, !bool_decide_eq_false. tauto.
Qed.

Lemma max_from_in best c rest :
  In (max_from best c rest) (best :: PyDict.keys rest).
Proof.
  revert best c. induction rest as [|[k v] rest IH]; intros best c; simpl.
  - by left.
  - destruct (c <? v).
    + right. apply IH.
    + destruct (IH best c) as [H|H]; [by left|by right; right].
Qed.

Lemma max_key_in stats best :
  max_key stats = Some best -> In best (PyDict.keys stats).
Proof.
  destruct stats as [|[k v] rest]; [done|]. intros [= <-].
  apply (max_from_in k v rest).
Qed.

Lemma max_key_None stats : max_key stats = None <-> stats = [].
Proof. destruct stats as [|[k v] rest]; simpl; split; done. Qed.

End stats_facts.

(** ** The merge loop ends *)

Section termination.

Lemma table_size_set (k : Word) (v : Z) (d : PyDict.dict Word Z) :
  (table_size (PyDict.set k v d) <= table_size d + length k)%nat.
Proof.
  unfold table_size. induction d as [|[k' v'] d IH]; simpl; [lia|].
  destruct (decide (k' = k)) as [->|Hne]; simpl; lia.
Qed.

Lemma table_size_scan_from (p : Pair) (l acc : PyDict.dict Word Z) :
  (table_size
     (fold_left
        (fun merged_vocab wf =>
           PyDict.add (greedy_scan p (fst wf)) (snd wf) merged_vocab)
        l acc)
   <= table_size acc
      + list_sum (map (fun wf => length (greedy_scan p (fst wf))) l))%nat.
Proof.
  revert acc. induction l as [|[w f] l IH]; intros acc; simpl; [lia|].
  etrans; [apply IH|]. unfold PyDict.add.
  pose proof (table_size_set (greedy_scan p w)
                (default 0 (PyDict.get (greedy_scan p w) acc) + f) acc).
  lia.
Qed.

Lemma scan_sum_le (p : Pair) (l : PyDict.dict Word Z) :
  (list_sum (map (fun wf => length (greedy_scan p (fst wf))) l)
   <= table_size l)%nat.
Proof.
  unfold table_size. induction l as [|[w f] l IH]; simpl; [lia|].
  pose proof (scan_length_le p w). lia.
Qed.

Lemma scan_sum_lt (p : Pair) (l : PyDict.dict Word Z) word freq i :
  In (word, freq) l -> (i < length word - 1)%nat -> pair_at word i = p ->
  (list_sum (map (fun wf => length (greedy_scan p (fst wf))) l)
   < table_size l)%nat.
Proof.
  intros Hin Hi Hp. induction l as [|[w f] l IH]; [done|].
  unfold table_size in *. simpl.
  destruct Hin as [[= -> ->]|Hin].
  - pose proof (scan_shrinks p word i Hi Hp).
    pose proof (scan_sum_le p l). unfold table_size in *. lia.
  - pose proof (scan_length_le p w). specialize (IH Hin). lia.
Qed.

Lemma merge_vocab_shrinks best word_freqs :
  In best (PyDict.keys (_get_stats word_freqs)) ->
  (table_size (_merge_vocab best word_freqs) < table_size word_freqs)%nat.
Proof.
  intros (word & freq & i & Hin & Hi & Hp & _)%in_get_stats.
  rewrite merge_vocab_scan.
  pose proof (table_size_scan_from best word_freqs []).
  pose proof (scan_sum_lt best word_freqs word freq i Hin Hi (eq_sym Hp)).
  unfold table_size in *. simpl in *. lia.
Qed.

Lemma merge_loop_total fuel vocab_size merges word_freqs vocab_symbols :
  (table_size word_freqs <= fuel)%nat ->
  exists r,
    merge_loop fuel vocab_size merges word_freqs vocab_symbols = Some r.
Proof.
  revert merges word_freqs vocab_symbols.
  induction fuel as [|fuel IH]; intros ms wf syms Hfuel; simpl.
  - destruct (Z.of_nat (size syms) <? vocab_size); [|eauto].
    destruct (max_key (_get_stats wf)) as [best|] eqn:E; [|eauto].
    apply max_key_in, merge_vocab_shrinks in E. lia.
  - destruct (Z.of_nat (size syms) <? vocab_size); [|eauto].
    destruct (max_key (_get_stats wf)) as [best|] eqn:E; [|eauto].
    apply IH. apply max_key_in, merge_vocab_shrinks in E. lia.
Qed.

(** What the loop leaves behind, whatever the fuel was. *)
Lemma merge_loop_result (fuel : nat) (vocab_size : Z) (ms : list Pair)
  (wf : PyDict.dict Word Z) (syms : gset str)
  (ms' : list Pair) (wf' : PyDict.dict Word Z) (syms' : gset str) :
  merge_loop fuel vocab_size ms wf syms = Some (ms', wf', syms') ->
  exists new,
    ms' = ms ++ new
    /\ Forall (fun p => fst p <> EOW /\ snd p <> EOW) new
    /\ syms' = syms ∪ list_to_set (map bigram_of new)
    /\ (vocab_size <= Z.of_nat (size syms') \/ _get_stats wf' = [])
    /\ Z.of_nat (size syms') <= Z.max (Z.of_nat (size syms)) vocab_size
    /\ match new with
       | [] => wf' = wf
       | best :: _ =>
           Z.of_nat (size syms) < vocab_size
           /\ max_key (_get_stats wf) = Some best
       end.
Proof.
  revert ms wf syms. induction fuel as [|fuel IH]; intros ms wf syms; simpl.
  - destruct (Z.ltb_spec (Z.of_nat (size syms)) vocab_size) as [Hlt|Hge].
    + destruct (max_key (_get_stats wf)) as [best|] eqn:E; [done|].
      intros [= <- <- <-]. exists []. rewrite app_nil_r. simpl.
      apply max_key_None in E.
      repeat split; auto; [set_solver|lia].
    + intros [= <- <- <-]. exists []. rewrite app_nil_r. simpl.
      repeat split; auto; [set_solver|lia].
  - destruct (Z.ltb_spec (Z.of_nat (size syms)) vocab_size) as [Hlt|Hge].
    + destruct (max_key (_get_stats wf)) as [best|] eqn:E.
      * intros Hloop.
        destruct (IH _ _ _ Hloop) as (new & -> & Hnew & -> & Hstop & Hsz & _).
        exists (best :: new). rewrite <- app_assoc. simpl.
        pose proof E as Hbest.
        apply max_key_in, in_get_stats in E
          as (word & freq & i & _ & _ & _ & He%has_eow_false).
        assert (size (syms ∪ {[bigram_of best]}) <= S (size syms))%nat.
        { etrans; [apply Nat.eq_le_incl, size_union_alt|].
          pose proof (subseteq_size ({[bigram_of best]} ∖ syms)
                        {[bigram_of best]}) as Hs.
          rewrite size_singleton in Hs.
          specialize (Hs ltac:(set_solver)). lia. }
        split_and!; auto.
        -- set_solver.
        -- lia.
      * intros [= <- <- <-]. exists []. rewrite app_nil_r. simpl.
        apply max_key_None in E.
        repeat split; auto; [set_solver|lia].
    + intros [= <- <- <-]. exists []. rewrite app_nil_r. simpl.
      repeat split; auto; [set_solver|lia].
Qed.

Lemma merge_loop_fuel_mono (fuel fuel' : nat) (vocab_size : Z)
  (ms : list Pair) (wf : PyDict.dict Word Z) (syms : gset str) r :
  merge_loop fuel vocab_size ms wf syms = Some r -> (fuel <= fuel')%nat ->
  merge_loop fuel' vocab_size ms wf syms = Some r.
Proof.
  revert fuel' ms wf syms.
  induction fuel as [|fuel IH]; intros [|fuel'] ms wf syms; simpl;
    try done; try lia;
    destruct (Z.of_nat (size syms) <? vocab_size); try done;
    destruct (max_key (_get_stats wf)) as [best|]; try done.
  intros Hloop Hle. apply IH; [done|lia].
Qed.

End termination.

(** ** The word table and the initial symbols *)

Section table_facts.

Lemma in_count_line (words : list str) (acc : PyDict.dict Word Z) w :
  In w (PyDict.keys
          (fold_left
             (fun word_freqs word => PyDict.add (symbols_of word) 1 word_freqs)
             words acc))
  <-> In w (PyDict.keys acc)
      \/ exists word, In word words /\ w = symbols_of word.
Proof.
  revert acc. induction words as [|x words IH]; intros acc; simpl.
  - split; [auto|]. intros [?|(? & [] & _)]; done.
  - rewrite IH, in_keys_add. split.
    + intros [[->|?]|(word & ? & ?)]; eauto.
    + intros [?|(word & [<-|?] & ->)]; eauto.
Qed.

Lemma count_line_not_nil (words : list str) (acc : PyDict.dict Word Z) :
  words <> [] \/ acc <> [] ->
  fold_left
    (fun word_freqs word => PyDict.add (symbols_of word) 1 word_freqs)
    words acc <> [].
Proof.
  revert acc. induction words as [|x words IH]; intros acc; simpl.
  - intros [?|?]; done.
  - intros _. apply IH. right. apply add_not_nil.
Qed.

Lemma count_step_fold word_freqs line :
  count_step word_freqs line
  = fold_left
      (fun word_freqs word => PyDict.add (symbols_of word) 1 word_freqs)
      (words_of line) word_freqs.
Proof. unfold count_step. by destruct (words_of line). Qed.

Lemma in_count_words_from corpus (acc : PyDict.dict Word Z) w :
  In w (PyDict.keys (fold_left count_step corpus acc))
  <-> In w (PyDict.keys acc)
      \/ exists line word,
           In line corpus /\ In word (words_of line) /\ w = symbols_of word.
Proof.
  revert acc. induction corpus as [|line corpus IH]; intros acc; simpl.
  - split; [auto|]. intros [?|(? & ? & [] & _)]; done.
  - rewrite IH, count_step_fold, in_count_line. split.
    + intros [[?|(word & ? & ?)]|(l & word & ? & ? & ?)]; eauto 8.
    + intros [?|(l & word & [<-|?] & ? & ?)]; eauto 8.
Qed.

Lemma in_count_words corpus w :
  In w (PyDict.keys (count_words corpus))
  <-> exists line word,
        In line corpus /\ In word (words_of line) /\ w = symbols_of word.
Proof.
  unfold count_words. rewrite in_count_words_from. simpl. tauto.
Qed.

Lemma count_words_nil corpus :
  count_words corpus = [] <-> forall line, In line corpus -> words_of line = [].
Proof.
  split.
  - intros Hnil line Hin.
    destruct (words_of line) as [|word ws] eqn:E; [done|].
    assert (In (symbols_of word) (PyDict.keys (count_words corpus))) as Hk.
    { apply in_count_words. exists line, word. rewrite E. simpl. auto. }
    rewrite Hnil in Hk. done.
  - intros Hall. destruct (count_words corpus) as [|[w f] l] eqn:E; [done|].
    assert (In w (PyDict.keys (count_words corpus))) as Hk.
    { rewrite E. by left. }
    apply in_count_words in Hk as (line & word & Hl & Hw & _).
    rewrite (Hall line Hl) in Hw. done.
Qed.

Lemma in_initial_symbols_from (word_freqs : PyDict.dict Word Z)
  (acc : gset str) s :
  s ∈ fold_left
        (fun vocab_symbols wf =>
           vocab_symbols ∪
           list_to_set (filter (fun symbol => symbol <> EOW) (fst wf)))
        word_freqs acc
  <-> s ∈ acc
      \/ exists word, In word (PyDict.keys word_freqs) /\ In s word /\ s <> EOW.
Proof.
  revert acc. induction word_freqs as [|[w f] l IH]; intros acc; simpl.
  - split; [auto|]. intros [?|(? & [] & _)]; done.
  - rewrite IH, elem_of_union, elem_of_list_to_set, list_elem_of_filter,
      list_elem_of_In. split.
    + intros [[?|[? ?]]|(word & ? & ? & ?)]; eauto 8.
    + intros [?|(word & [<-|?] & ? & ?)]; eauto 8.
Qed.

Lemma in_initial_symbols unk word_freqs s :
  s ∈ initial_symbols unk word_freqs
  <-> s = unk
      \/ exists word, In word (PyDict.keys word_freqs) /\ In s word /\ s <> EOW.
Proof.
  unfold initial_symbols. rewrite in_initial_symbols_from.
  by rewrite elem_of_singleton.
Qed.

Lemma in_symbols_of word s :
  In s (symbols_of word) <-> (exists c, In c word /\ s = [c]) \/ s = EOW.
Proof.
  unfold symbols_of. rewrite in_app_iff, in_map_iff. simpl. split.
  - intros [(c & <- & ?)|[<-|Hf]]; [eauto|eauto|destruct Hf].
  - intros [(c & ? & ->) | ->]; eauto.
Qed.

(** The symbols training starts from: the unknown token and the characters
    of the words, each as a one-character symbol. *)
Lemma in_initial_symbols_corpus unk corpus s :
  s ∈ initial_symbols unk (count_words corpus)
  <-> s = unk
      \/ exists line word c,
           In line corpus /\ In word (words_of line) /\ In c word /\ s = [c].
Proof.
  rewrite in_initial_symbols. split.
  - intros [?|(w & Hw & Hs & Hne)]; [by left|]. right.
    apply in_count_words in Hw as (line & word & ? & ? & ->).
    apply in_symbols_of in Hs as [(c & ? & ->)|?]; [|done].
    exists line, word, c. auto.
  - intros [?|(line & word & c & ? & ? & ? & ->)]; [by left|]. right.
    exists (symbols_of word). split; [|split].
    + apply in_count_words. eauto.
    + apply in_symbols_of. eauto.
    + done.
Qed.

End table_facts.

(** ** The order of strings and the numbering of the vocabulary *)

Section vocab_facts.

Lemma str_leb_refl a : str_leb a a = true.
Proof.
  induction a as [|x a IH]; simpl; [done|].
  destruct (N.ltb_spec x x); [done|]. by rewrite N.eqb_refl.
Qed.

#[global] Instance str_le_total : Total str_le.
Proof.
  intros a. unfold str_le. induction a as [|x a IH]; intros [|y b]; simpl; auto.
  destruct (N.ltb_spec x y), (N.ltb_spec y x); auto; try lia.
  destruct (N.eqb_spec x y), (N.eqb_spec y x); auto; lia.
Qed.

#[global] Instance str_le_trans : Transitive str_le.
Proof.
  intros a. unfold str_le.
  induction a as [|x a IH]; intros [|y b] [|z c]; simpl; auto; try done.
  destruct (N.ltb_spec x y), (N.ltb_spec y z), (N.ltb_spec x z); auto;
    try lia;
    destruct (N.eqb_spec x y), (N.eqb_spec y z), (N.eqb_spec x z); auto;
    try done; try lia.
  apply IH.
Qed.

#[global] Instance str_le_antisym : AntiSymm (=) str_le.
Proof.
  intros a. unfold str_le.
  induction a as [|x a IH]; intros [|y b]; simpl; auto; try done.
  destruct (N.ltb_spec x y), (N.ltb_spec y x); try lia; try done.
  - destruct (N.eqb_spec y x); [lia|done].
  - destruct (N.eqb_spec x y); [lia|done].
  - destruct (N.eqb_spec x y), (N.eqb_spec y x); try done.
    intros H1 H2. f_equal; auto.
Qed.

Lemma sorted_strict (l : list str) :
  NoDup l -> StronglySorted str_le l -> StronglySorted str_lt l.
Proof.
  induction 2 as [|x l Hs IH Hall]; constructor.
  - apply IH. by apply NoDup_cons in H as [_ ?].
  - apply NoDup_cons in H as [Hx _].
    rewrite Forall_forall in *. intros y Hy. split; [by apply Hall|].
    intros ->. done.
Qed.

Lemma in_ordered_vocab (unk : str) (syms : gset str) (s : str) :
  In s (ordered_vocab_of unk syms) <-> s = unk \/ s ∈ syms.
Proof.
  unfold ordered_vocab_of, sorted. simpl.
  rewrite <- list_elem_of_In, merge_sort_Permutation, elem_of_elements,
    elem_of_difference, elem_of_singleton.
  destruct (decide (s = unk)); naive_solver.
Qed.

Lemma ordered_vocab_NoDup (unk : str) (syms : gset str) :
  NoDup (ordered_vocab_of unk syms).
Proof.
  unfold ordered_vocab_of, sorted. apply NoDup_cons. split.
  - rewrite merge_sort_Permutation, elem_of_elements. set_solver.
  - rewrite merge_sort_Permutation. apply NoDup_elements.
Qed.

Lemma ordered_vocab_length (unk : str) (syms : gset str) :
  length (ordered_vocab_of unk syms) = S (size (syms ∖ {[ unk ]})).
Proof.
  unfold ordered_vocab_of, sorted. simpl.
  by rewrite merge_sort_Permutation.
Qed.

Lemma keys_imap {A B} (f : nat -> A -> A * B) (l : list A) :
  (forall n x, fst (f n x) = x) -> map fst (imap f l) = l.
Proof.
  revert f. induction l as [|x l IH]; intros f Hf; simpl; [done|].
  rewrite Hf. f_equal. apply IH. intros n y. apply Hf.
Qed.

Lemma keys_enumerate (l : list str) : PyDict.keys (enumerate_vocab l) = l.
Proof. unfold PyDict.keys, enumerate_vocab. by apply keys_imap. Qed.

Lemma enumerate_of_items (l : list str) :
  NoDup l -> PyDict.of_items (enumerate_vocab l) = enumerate_vocab l.
Proof.
  intros Hnd. apply of_items_NoDup.
  change (map fst ?x) with (PyDict.keys x). by rewrite keys_enumerate.
Qed.

Lemma get_in_NoDup {K V} `{EqDecision K} (d : PyDict.dict K V) k v :
  NoDup (PyDict.keys d) -> In (k, v) d -> PyDict.get k d = Some v.
Proof.
  induction d as [|[k' v'] d IH]; simpl; [done|].
  intros [Hk Hnd]%NoDup_cons [[= -> ->]|Hin].
  - by rewrite decide_True.
  - rewrite decide_False; [by apply IH|].
    intros ->. apply Hk. apply list_elem_of_In.
    unfold PyDict.keys. apply in_map_iff. by exists (k, v).
Qed.

Lemma get_enumerate (l : list str) n tok :
  NoDup l -> l !! n = Some tok ->
  PyDict.get tok (enumerate_vocab l) = Some (Z.of_nat n).
Proof.
  intros Hnd Hn. apply get_in_NoDup.
  - by rewrite keys_enumerate.
  - apply list_elem_of_In. unfold enumerate_vocab.
    by apply (elem_of_lookup_imap_2 (fun idx token => (token, Z.of_nat idx))).
Qed.

Lemma get_enumerate_inv (l : list str) tok i :
  PyDict.get tok (enumerate_vocab l) = Some i ->
  0 <= i /\ l !! Z.to_nat i = Some tok.
Proof.
  intros Hin%get_Some_in%list_elem_of_In.
  apply elem_of_lookup_imap_1 in Hin as (n & x & [= -> ->] & Hn).
  rewrite Nat2Z.id. split; [lia|done].
Qed.

End vocab_facts.

(** ** What [train] returns *)

Section train_facts.

Lemma usable_words corpus :
  usable corpus <-> exists line word, In line corpus /\ In word (words_of line).
Proof.
  unfold usable, words_of. split.
  - intros (line & w & Hl & Hw & Hne). exists line, (WORD_START :: w).
    split; [done|]. apply in_map, list_elem_of_In, list_elem_of_filter.
    split; [done|]. by apply list_elem_of_In.
  - intros (line & word & Hl & Hw). apply in_map_iff in Hw as (w & _ & Hw).
    apply list_elem_of_In, list_elem_of_filter in Hw as [Hne Hw].
    exists line, w. split; [done|]. split; [by apply list_elem_of_In|done].
Qed.

Lemma usable_count_words corpus : usable corpus <-> count_words corpus <> [].
Proof.
  rewrite usable_words, count_words_nil. split.
  - intros (line & word & Hl & Hw) Hall. rewrite (Hall line Hl) in Hw. done.
  - intros Hn. destruct (decide (Forall (fun line => words_of line = []) corpus))
      as [Hall|Hex].
    + destruct Hn. intros line Hl. rewrite Forall_forall in Hall.
      apply Hall. by apply list_elem_of_In.
    + apply not_Forall_Exists, Exists_exists in Hex as (line & Hl & Hw);
        [|apply _].
      destruct (words_of line) as [|word ws] eqn:E; [done|].
      exists line, word. split; [by apply list_elem_of_In|]. rewrite E. by left.
Qed.

Lemma train_small self corpus vocab_size :
  vocab_size < 2 -> train self corpus vocab_size = (Raise InvalidArgument, self).
Proof.
  intros Hlt. unfold train. by destruct (Z.ltb_spec vocab_size 2); [|lia].
Qed.

Lemma train_empty self corpus vocab_size :
  2 <= vocab_size -> count_words corpus = [] ->
  train self corpus vocab_size = (Raise EmptyInput, self).
Proof.
  intros Hge Hnil. unfold train.
  destruct (Z.ltb_spec vocab_size 2); [lia|]. by rewrite Hnil.
Qed.

Lemma train_returns self corpus vocab_size :
  2 <= vocab_size -> count_words corpus <> [] ->
  exists ms' wf' syms',
    merge_loop (table_size (count_words corpus)) vocab_size []
      (count_words corpus)
      (initial_symbols (unk_token self) (count_words corpus))
    = Some (ms', wf', syms')
    /\ train self corpus vocab_size
       = (Return tt,
          {| unk_token := unk_token self; merges := ms';
             vocab := enumerate_vocab
                        (ordered_vocab_of (unk_token self) syms') |}).
Proof.
  intros Hge Hne. unfold train.
  destruct (Z.ltb_spec vocab_size 2); [lia|].
  assert (PyDict.is_empty (count_words corpus) = false) as ->.
  { by destruct (count_words corpus). }
  cbn [unk_token merges].
  destruct (merge_loop_total (table_size (count_words corpus)) vocab_size []
              (count_words corpus)
              (initial_symbols (unk_token self) (count_words corpus)))
    as [[[ms' wf'] syms'] Hloop]; [lia|].
  exists ms', wf', syms'. split; [done|]. rewrite Hloop.
  rewrite enumerate_of_items; [done|]. apply ordered_vocab_NoDup.
Qed.

(** Every return of [train] has this shape. *)
Lemma train_return_inv self corpus vocab_size self' :
  train self corpus vocab_size = (Return tt, self') ->
  2 <= vocab_size /\ count_words corpus <> []
  /\ exists ms' wf' syms',
       merge_loop (table_size (count_words corpus)) vocab_size []
         (count_words corpus)
         (initial_symbols (unk_token self) (count_words corpus))
       = Some (ms', wf', syms')
       /\ self' = {| unk_token := unk_token self; merges := ms';
                     vocab := enumerate_vocab
                                (ordered_vocab_of (unk_token self) syms') |}.
Proof.
  intros Htrain.
  destruct (Z.lt_ge_cases vocab_size 2) as [Hlt|Hge].
  { rewrite train_small in Htrain by done. done. }
  destruct (decide (count_words corpus = [])) as [Hnil|Hne].
  { rewrite train_empty in Htrain by done. done. }
  split; [done|]. split; [done|].
  destruct (train_returns self corpus vocab_size Hge Hne)
    as (ms' & wf' & syms' & Hloop & Heq).
  exists ms', wf', syms'. split; [done|]. congruence.
Qed.

End train_facts.

(** ** Errors and termination of [train] *)

(** C4.  [train] raises the vocabulary-size error exactly when
    [vocab_size < 2], raises the empty-corpus error exactly when
    [vocab_size >= 2] and no line of the corpus yields a non-empty word
    after whitespace splitting, and returns normally on every other input:
    one of the three always happens, and nothing else. *)
Theorem train_failure_cases (self : BPETokenizer) (corpus : list str)
  (vocab_size : Z) :
  let r := fst (train self corpus vocab_size) in
  (r = Raise InvalidArgument <-> vocab_size < 2)
  /\ (r = Raise EmptyInput <-> 2 <= vocab_size /\ ~ usable corpus)
  /\ (r = Raise InvalidArgument \/ r = Raise EmptyInput \/ r = Return tt).
Proof.
  cbv zeta. rewrite usable_count_words.
  destruct (Z.lt_ge_cases vocab_size 2) as [Hlt|Hge].
  - rewrite train_small by done. simpl. split_and!; [done| |by left].
    split; [done|]. lia.
  - destruct (decide (count_words corpus = [])) as [Hnil|Hne].
    + rewrite train_empty by done. simpl. split_and!.
      * split; [done|lia].
      * split; [|done]. intros _. split; [done|]. by intros [].
      * right. by left.
    + destruct (train_returns self corpus vocab_size Hge Hne)
        as (ms' & wf' & syms' & _ & ->). simpl. split_and!.
      * split; [done|lia].
      * split; [done|]. intros [_ Hn]. by destruct Hn.
      * right. by right.
Qed.

(** C10.  A call of [train] that raises leaves the tokenizer as it was:
    the merge list and the vocabulary (and the unknown token) are those of
    before the call. *)
Theorem train_failure_keeps_state (self self' : BPETokenizer)
  (corpus : list str) (vocab_size : Z) (e : Error) :
  train self corpus vocab_size = (Raise e, self') ->
  merges self' = merges self /\ vocab self' = vocab self /\ self' = self.
Proof.
  intros Htrain.
  enough (self' = self) as -> by done.
  destruct (Z.lt_ge_cases vocab_size 2) as [Hlt|Hge].
  { rewrite train_small in Htrain by done. congruence. }
  destruct (decide (count_words corpus = [])) as [Hnil|Hne].
  { rewrite train_empty in Htrain by done. congruence. }
  destruct (train_returns self corpus vocab_size Hge Hne)
    as (ms' & wf' & syms' & _ & Heq).
  congruence.
Qed.

Lemma train_failure_keeps_state_witness :
  train used_tokenizer [lit "  "] 5 = (Raise EmptyInput, used_tokenizer)
  /\ merges used_tokenizer = [(lit "a", lit "b")]
  /\ merges (snd (train used_tokenizer [lit "  "] 5)) = merges used_tokenizer.
Proof.
  split; [reflexivity|]. split; [reflexivity|].
  apply (train_failure_keeps_state used_tokenizer
           (snd (train used_tokenizer [lit "  "] 5)) [lit "  "] 5 EmptyInput).
  reflexivity.
Defined.

(** C8.  Under the preconditions the merge loop ends, with any fuel from
    the size of the word table on and always in the same state: the symbol
    set has reached [vocab_size], or no pair is left to count.  Either way
    [train] returns normally, with the merges the loop has learned. *)
Theorem train_loop_terminates (self : BPETokenizer) (corpus : list str)
  (vocab_size : Z) :
  2 <= vocab_size -> usable corpus ->
  exists learned word_freqs' vocab_symbols',
    (forall fuel, (table_size (count_words corpus) <= fuel)%nat ->
       merge_loop fuel vocab_size [] (count_words corpus)
         (initial_symbols (unk_token self) (count_words corpus))
       = Some (learned, word_freqs', vocab_symbols'))
    /\ (vocab_size <= Z.of_nat (size vocab_symbols')
        \/ _get_stats word_freqs' = [])
    /\ fst (train self corpus vocab_size) = Return tt
    /\ merges (snd (train self corpus vocab_size)) = learned.
Proof.
  intros Hge Hne%usable_count_words.
  destruct (train_returns self corpus vocab_size Hge Hne)
    as (ms' & wf' & syms' & Hloop & ->).
  exists ms', wf', syms'. split_and!; try done.
  - intros fuel Hfuel. by apply (merge_loop_fuel_mono _ _ _ _ _ _ _ Hloop).
  - by apply merge_loop_result in Hloop as (new & _ & _ & _ & Hstop & _).
Qed.

Lemma usable_hello : usable [lit "hello world"].
Proof.
  exists (lit "hello world"), (lit "hello").
  split; [by left|]. split; [|done]. vm_compute. by left.
Defined.

Lemma train_loop_terminates_witness :
  exists learned word_freqs' vocab_symbols',
    (forall fuel,
       (table_size (count_words [lit "hello world"]) <= fuel)%nat ->
       merge_loop fuel 10 [] (count_words [lit "hello world"])
         (initial_symbols (unk_token new_tokenizer)
            (count_words [lit "hello world"]))
       = Some (learned, word_freqs', vocab_symbols'))
    /\ (10 <= Z.of_nat (size vocab_symbols') \/ _get_stats word_freqs' = [])
    /\ fst (train new_tokenizer [lit "hello world"] 10) = Return tt
    /\ merges (snd (train new_tokenizer [lit "hello world"] 10)) = learned.
Proof.
  apply (train_loop_terminates new_tokenizer [lit "hello world"] 10).
  - lia.
  - exact usable_hello.
Defined.

(** C7.  A pair is counted in the statistics exactly when it stands at
    adjacent positions of a word of the table and neither of its elements
    is the end-of-word marker; so no pair of the merge list that [train]
    produces has the marker as an element. *)
Theorem eow_never_merged :
  (forall (word_freqs : PyDict.dict Word Z) (pair : Pair),
     In pair (PyDict.keys (_get_stats word_freqs))
     <-> exists word freq i,
           In (word, freq) word_freqs /\ (i < length word - 1)%nat
           /\ pair = pair_at word i
           /\ fst pair <> EOW /\ snd pair <> EOW)
  /\ (forall self corpus vocab_size self',
        train self corpus vocab_size = (Return tt, self') ->
        Forall (fun pair => fst pair <> EOW /\ snd pair <> EOW)
          (merges self')).
Proof.
  split.
  - intros word_freqs pair. rewrite in_get_stats.
    by setoid_rewrite has_eow_false.
  - intros self corpus vocab_size self' Htrain.
    apply train_return_inv in Htrain
      as (_ & _ & ms' & wf' & syms' & Hloop & ->).
    apply merge_loop_result in Hloop as (new & -> & Hnew & _). done.
Qed.

Lemma eow_never_merged_witness :
  Forall (fun pair => fst pair <> EOW /\ snd pair <> EOW)
    (merges (snd (train new_tokenizer [lit "hello world"] 10))).
Proof.
  apply (proj2 eow_never_merged new_tokenizer [lit "hello world"] 10).
  reflexivity.
Defined.

(** ** The vocabulary [train] builds *)

Section vocabulary.

Lemma enumerate_cons (unk : str) (symbols : list str) :
  enumerate_vocab (unk :: symbols)
  = (unk, 0) :: imap (fun i s => (s, Z.of_nat (S i))) symbols.
Proof. reflexivity. Qed.

Lemma in_sorted_symbols (unk : str) (syms : gset str) (s : str) :
  In s (sorted (elements (syms ∖ {[ unk ]}))) <-> s ∈ syms /\ s <> unk.
Proof.
  unfold sorted.
  rewrite <- list_elem_of_In, merge_sort_Permutation, elem_of_elements.
  set_solver.
Qed.

Lemma sorted_symbols_strict (unk : str) (syms : gset str) :
  StronglySorted str_lt (sorted (elements (syms ∖ {[ unk ]}))).
Proof.
  apply sorted_strict.
  - unfold sorted. rewrite merge_sort_Permutation. apply NoDup_elements.
  - apply StronglySorted_merge_sort; apply _.
Qed.

Lemma word_has_start line word :
  In word (words_of line) -> exists c w, word = WORD_START :: c :: w.
Proof.
  unfold words_of. intros (w & <- & Hw)%in_map_iff.
  apply list_elem_of_In, list_elem_of_filter in Hw as [Hne _].
  destruct w as [|c w]; [done|]. eauto.
Qed.

Lemma single_not_eow (c : N) : [c] <> EOW.
Proof. done. Qed.

Lemma stats_of_usable corpus :
  usable corpus -> _get_stats (count_words corpus) <> [].
Proof.
  intros (line & word & Hl & Hw)%usable_words.
  destruct (word_has_start _ _ Hw) as (c & w & ->).
  assert (In (symbols_of (WORD_START :: c :: w))
            (PyDict.keys (count_words corpus))) as Hk.
  { apply in_count_words. eauto. }
  unfold PyDict.keys in Hk. apply in_map_iff in Hk as ([word f] & Heq & Hin).
  simpl in Heq. subst word.
  enough (In ([WORD_START], [c])
            (PyDict.keys (_get_stats (count_words corpus)))) as Hs.
  { intros Hnil. rewrite Hnil in Hs. done. }
  apply in_get_stats. exists (symbols_of (WORD_START :: c :: w)), f, 0%nat.
  split; [done|]. split; [|split].
  - unfold symbols_of. rewrite length_app. simpl. lia.
  - reflexivity.
  - apply has_eow_false. simpl. split; apply single_not_eow.
Qed.

Lemma stats_pair_long corpus (best : Pair) :
  In best (PyDict.keys (_get_stats (count_words corpus))) ->
  (2 <= length (bigram_of best))%nat.
Proof.
  intros (word & freq & i & Hin & Hi & -> & _)%in_get_stats.
  assert (In word (PyDict.keys (count_words corpus))) as Hk.
  { unfold PyDict.keys. apply in_map_iff. by exists (word, freq). }
  apply in_count_words in Hk as (line & w & _ & _ & ->).
  assert (forall j, (j < length (symbols_of w))%nat ->
            (1 <= length (nth j (symbols_of w) []))%nat) as Hlen.
  { intros j Hj.
    pose proof (nth_In (symbols_of w) [] Hj) as Hnth.
    apply in_symbols_of in Hnth as [(c & _ & ->)| ->]; simpl; lia. }
  unfold bigram_of, pair_at. simpl. rewrite length_app.
  pose proof (Hlen i ltac:(lia)). pose proof (Hlen (i + 1)%nat ltac:(lia)).
  lia.
Qed.

Lemma other_symbol (unk : str) (corpus : list str) (vocab_size : Z)
  (fuel : nat)
  (ms' : list Pair) (wf' : PyDict.dict Word Z) (syms' : gset str) :
  2 <= vocab_size -> usable corpus ->
  merge_loop fuel vocab_size [] (count_words corpus)
    (initial_symbols unk (count_words corpus)) = Some (ms', wf', syms') ->
  (2 <= size syms')%nat.
Proof.
  intros Hge Hus Hloop.
  assert ([WORD_START] ∈ initial_symbols unk (count_words corpus)) as Hstart.
  { apply in_initial_symbols_corpus. right.
    apply usable_words in Hus as (line & word & Hl & Hw).
    destruct (word_has_start _ _ Hw) as (c & w & ->).
    exists line, (WORD_START :: c :: w), WORD_START. simpl. auto. }
  assert (unk ∈ initial_symbols unk (count_words corpus)) as Hunk.
  { apply in_initial_symbols_corpus. by left. }
  apply merge_loop_result in Hloop
    as (new & _ & _ & -> & Hstop & _ & Hnew).
  set (syms0 := initial_symbols unk (count_words corpus)) in *.
  assert (forall a b : str, a <> b -> a ∈ syms0 ∪ list_to_set (map bigram_of new)
            -> b ∈ syms0 ∪ list_to_set (map bigram_of new) ->
            (2 <= size (syms0 ∪ list_to_set (map bigram_of new)))%nat) as Htwo.
  { intros a b Hab Ha Hb.
    pose proof (subseteq_size ({[a]} ∪ {[b]} : gset str)
                  (syms0 ∪ list_to_set (map bigram_of new))
                  ltac:(set_solver)) as Hs.
    rewrite size_union in Hs by set_solver.
    by rewrite !size_singleton in Hs. }
  destruct (decide (unk = [WORD_START])) as [Heq|Hneq].
  - destruct new as [|best new].
    + subst wf'. destruct Hstop as [Hstop|Hstop]; [lia|].
      by apply stats_of_usable in Hus.
    + destruct Hnew as [_ Hbest%max_key_in%stats_pair_long].
      apply (Htwo [WORD_START] (bigram_of best)).
      * intros Heq'. rewrite <- Heq' in Hbest. simpl in Hbest. lia.
      * set_solver.
      * simpl. set_solver.
  - apply (Htwo unk [WORD_START]); [done|set_solver|set_solver].
Qed.

End vocabulary.

(** ** The word table through training *)

Section table_invariant.

Lemma concat_singletons (w : str) : concat (map (fun c => [c]) w) = w.
Proof. induction w as [|c w IH]; simpl; [done|]. by rewrite IH. Qed.

Lemma contains_eow_cons (w : str) :
  ~ contains_eow w -> ~ contains_eow (WORD_START :: w).
Proof.
  intros Hn (pre & post & Heq). destruct pre as [|x pre].
  - simpl in Heq. discriminate Heq.
  - injection Heq as _ Heq. apply Hn. by exists pre, post.
Qed.

Lemma contains_eow_lt (w : str) : contains_eow w -> In 60%N w.
Proof.
  intros (pre & post & ->). apply in_app_iff. right. by left.
Qed.

Lemma count_words_table corpus : table_from corpus (count_words corpus).
Proof.
  intros word (line & w & Hl & Hw & ->)%in_count_words.
  exists (map (fun c => [c]) w), line. rewrite concat_singletons. auto.
Qed.

Lemma in_merge_vocab_from (p : Pair) (l acc : PyDict.dict Word Z) word :
  In word
    (PyDict.keys
       (fold_left
          (fun merged_vocab wf =>
             PyDict.add (greedy_scan p (fst wf)) (snd wf) merged_vocab)
          l acc))
  <-> In word (PyDict.keys acc)
      \/ exists old, In old (PyDict.keys l) /\ word = greedy_scan p old.
Proof.
  revert acc. induction l as [|[w f] l IH]; intros acc; simpl.
  - split; [auto|]. intros [?|(? & [] & _)]; done.
  - rewrite IH, in_keys_add. split.
    + intros [[->|?]|(old & ? & ?)]; eauto.
    + intros [?|(old & [<-|?] & ->)]; eauto.
Qed.

Lemma merge_vocab_table corpus (best : Pair) (word_freqs : PyDict.dict Word Z) :
  snd best <> EOW -> table_from corpus word_freqs ->
  table_from corpus (_merge_vocab best word_freqs).
Proof.
  intros Hbest Htable word. rewrite merge_vocab_scan, in_merge_vocab_from.
  intros [[]|(old & Hold & ->)].
  destruct (Htable old Hold) as (body & line & -> & Hl & Hw).
  exists (greedy_scan best body), line.
  rewrite scan_snoc, scan_concat by done. auto.
Qed.

Lemma nth_app_lt (body : list str) (e : str) (i : nat) :
  (i < length body)%nat -> nth i (body ++ [e]) [] = nth i body [].
Proof. intros Hi. by rewrite app_nth1. Qed.

Lemma concat_two (body : list str) (i : nat) :
  (i + 1 < length body)%nat ->
  exists pre post,
    concat body = pre ++ (nth i body [] ++ nth (i + 1) body []) ++ post.
Proof.
  intros Hi. exists (concat (take i body)), (concat (drop (S (S i)) body)).
  rewrite <- (take_drop i body) at 1.
  rewrite (drop_nth_cons body i) by lia.
  rewrite (drop_nth_cons body (S i)) by lia.
  replace (i + 1)%nat with (S i) by lia.
  rewrite concat_app. simpl. by rewrite <- !app_assoc.
Qed.

(** A counted pair, concatenated, is a piece of a training word. *)
Lemma stats_infix corpus (word_freqs : PyDict.dict Word Z) (best : Pair) :
  table_from corpus word_freqs ->
  In best (PyDict.keys (_get_stats word_freqs)) ->
  exists line w pre post,
    In line corpus /\ In w (words_of line)
    /\ w = pre ++ bigram_of best ++ post.
Proof.
  intros Htable (word & freq & i & Hin & Hi & -> & He)%in_get_stats.
  apply has_eow_false in He as [_ Hsnd].
  destruct (Htable word) as (body & line & -> & Hl & Hw).
  { unfold PyDict.keys. apply in_map_iff. by exists (word, freq). }
  rewrite length_app in Hi. simpl in Hi.
  assert (i + 1 < length body)%nat as Hlt.
  { destruct (decide (i + 1 = length body)%nat) as [Heq|?]; [|lia].
    destruct Hsnd. unfold pair_at. simpl.
    rewrite Heq, app_nth2, Nat.sub_diag by lia. done. }
  destruct (concat_two body i Hlt) as (pre & post & Hcat).
  exists line, (concat body), pre, post. split; [done|]. split; [done|].
  unfold bigram_of, pair_at. simpl.
  by rewrite !nth_app_lt by lia.
Qed.

Lemma merge_loop_infix (corpus : list str) (fuel : nat) (vocab_size : Z) (ms : list Pair)
  (wf : PyDict.dict Word Z) (syms : gset str)
  (ms' : list Pair) (wf' : PyDict.dict Word Z) (syms' : gset str) :
  table_from corpus wf ->
  merge_loop fuel vocab_size ms wf syms = Some (ms', wf', syms') ->
  forall pair,
    In pair ms' ->
    In pair ms
    \/ exists line w pre post,
         In line corpus /\ In w (words_of line)
         /\ w = pre ++ bigram_of pair ++ post.
Proof.
  revert ms wf syms.
  induction fuel as [|fuel IH]; intros ms wf syms Htable; simpl;
    destruct (Z.of_nat (size syms) <? vocab_size);
    try (intros [= <- <- <-]; by left);
    destruct (max_key (_get_stats wf)) as [best|] eqn:E;
    try (intros [= <- <- <-]; by left); try done.
  intros Hloop pair Hpair.
  pose proof (max_key_in _ _ E) as Hbest.
  assert (snd best <> EOW) as Hsnd.
  { by apply in_get_stats in Hbest
      as (? & ? & ? & _ & _ & _ & [_ ?]%has_eow_false). }
  destruct (IH _ _ _ (merge_vocab_table corpus best wf Hsnd Htable)
              Hloop pair Hpair) as [[Hin|[<-|[]]]%in_app_iff|Hinf];
    [by left| |by right].
  right. by apply (stats_infix corpus wf).
Qed.

(** With no ["</w>"] in the words of the corpus, no learned merge spells
    the marker. *)
Lemma trained_merges_plain self corpus vocab_size self' pair :
  train self corpus vocab_size = (Return tt, self') ->
  (forall line w,
     In line corpus -> In w (split (strip line)) -> ~ contains_eow w) ->
  In pair (merges self') -> bigram_of pair <> EOW.
Proof.
  intros (_ & _ & ms' & wf' & syms' & Hloop & ->)%train_return_inv
    Hplain Hpair Heq.
  simpl in Hpair.
  destruct (merge_loop_infix corpus _ _ _ _ _ _ _ _
              (count_words_table corpus) Hloop pair Hpair)
    as [[]|(line & w & pre & post & Hl & Hw & Hcat)].
  unfold words_of in Hw. apply in_map_iff in Hw as (w0 & <- & Hw0).
  apply list_elem_of_In, list_elem_of_filter in Hw0 as [_ Hw0].
  apply (contains_eow_cons w0).
  - apply (Hplain line); [done|]. by apply list_elem_of_In.
  - exists pre, post. by rewrite <- Heq.
Qed.

End table_invariant.

(** C3, as amended.  After a normal return of [train] the vocabulary is
    the unknown token with id 0 followed by the other symbols, numbered
    1, 2, 3, ... in strictly increasing order of string comparison.  Those
    other symbols are the characters of the training words (the word-start
    marker included) and the concatenations of the learned merges.  The
    end-of-word marker is not one of them whenever no word of the corpus
    holds the text ["</w>"]; in any case it can only be there as the
    concatenation of a learned merge. *)
Theorem vocab_numbering (self self' : BPETokenizer) (corpus : list str)
  (vocab_size : Z) :
  train self corpus vocab_size = (Return tt, self') ->
  exists symbols,
    vocab self'
    = (unk_token self', 0) :: imap (fun i s => (s, Z.of_nat (S i))) symbols
    /\ StronglySorted str_lt symbols
    /\ (forall s,
          In s symbols
          <-> s <> unk_token self'
              /\ ((exists line word c,
                     In line corpus /\ In word (words_of line)
                     /\ In c word /\ s = [c])
                  \/ exists pair, In pair (merges self') /\ s = bigram_of pair))
    /\ ((forall line w,
           In line corpus -> In w (split (strip line)) -> ~ contains_eow w) ->
        ~ In EOW symbols)
    /\ (In EOW symbols ->
        exists pair, In pair (merges self') /\ bigram_of pair = EOW)
    /\ PyDict.get (unk_token self') (vocab self') = Some 0
    /\ (forall n s, symbols !! n = Some s ->
          PyDict.get s (vocab self') = Some (Z.of_nat (S n))).
Proof.
  intros Htrain.
  pose proof (trained_merges_plain self corpus vocab_size self') as Hplain.
  specialize (fun pair => Hplain pair Htrain).
  apply train_return_inv in Htrain
    as (_ & _ & ms' & wf' & syms' & Hloop & ->).
  cbn [unk_token vocab merges] in *.
  exists (sorted (elements (syms' ∖ {[ unk_token self ]}))).
  apply merge_loop_result in Hloop as (new & -> & _ & -> & _).
  pose proof (ordered_vocab_NoDup (unk_token self)
                (initial_symbols (unk_token self) (count_words corpus)
                 ∪ list_to_set (map bigram_of new))) as Hnd.
  assert (In EOW
            (sorted
               (elements
                  ((initial_symbols (unk_token self) (count_words corpus)
                    ∪ list_to_set (map bigram_of new))
                   ∖ {[ unk_token self ]}))) ->
          exists pair, In pair new /\ bigram_of pair = EOW) as Heow.
  { rewrite in_sorted_symbols, elem_of_union, in_initial_symbols_corpus,
      elem_of_list_to_set, list_elem_of_In, in_map_iff.
    intros [[[?|(line & word & c & _ & _ & _ & ?)]|(p & ? & ?)] ?];
      [done|done|]. eauto. }
  split_and!.
  - reflexivity.
  - apply sorted_symbols_strict.
  - intros s. rewrite in_sorted_symbols, elem_of_union,
      in_initial_symbols_corpus, elem_of_list_to_set, list_elem_of_In,
      in_map_iff.
    simpl. split.
    + intros [[[?|?]|(p & <- & ?)] ?]; [done| |]; split; eauto.
    + intros [? [?|(p & ? & ->)]]; split; eauto.
  - intros Hwords (pair & Hpair & Heq)%Heow.
    by apply (Hplain pair Hwords Hpair).
  - simpl. exact Heow.
  - by apply (get_enumerate _ 0).
  - intros n s Hn. by apply (get_enumerate _ (S n)).
Qed.

Lemma vocab_numbering_witness :
  train new_tokenizer [lit "ab"] 5
  = (Return tt, snd (train new_tokenizer [lit "ab"] 5))
  /\ exists symbols,
       vocab (snd (train new_tokenizer [lit "ab"] 5))
       = (lit "<unk>", 0) :: imap (fun i s => (s, Z.of_nat (S i))) symbols
       /\ StronglySorted str_lt symbols
       /\ ~ In EOW symbols.
Proof.
  split; [reflexivity|].
  destruct (vocab_numbering new_tokenizer
              (snd (train new_tokenizer [lit "ab"] 5)) [lit "ab"] 5 eq_refl)
    as (symbols & Hv & Hs & _ & Hno & _).
  exists symbols. split; [exact Hv|]. split; [exact Hs|].
  apply Hno. intros line w [<-|[]] Hw Hc%contains_eow_lt.
  vm_compute in Hw. destruct Hw as [<-|[]].
  vm_compute in Hc. destruct Hc as [Hc|[Hc|[]]]; discriminate Hc.
Defined.

(** The claim as stated fails: trained on ["a</w>"] and ["b</w>"] the
    merges spell ["</w>"], which gets id 5 like any other symbol; numbering
    the symbols other than the unknown token and ["</w>"] would give [">"]
    the id 5, and the vocabulary gives it 6. *)
Lemma vocab_holds_eow_text :
  let corpus := [lit "a</w>"; lit "b</w>"] in
  let self' := snd (train new_tokenizer corpus 11) in
  train new_tokenizer corpus 11 = (Return tt, self')
  /\ PyDict.get EOW (vocab self') = Some 5
  /\ PyDict.get (lit ">") (vocab self') = Some 6
  /\ sorted
       (filter (fun s => s <> EOW /\ s <> unk_token self')
          (PyDict.keys (vocab self'))) !! 4%nat
     = Some (lit ">").
Proof. cbv zeta. repeat split; reflexivity. Qed.

(** C2, as amended.  For a usable corpus and [vocab_size >= 2], [train]
    returns a vocabulary that holds the unknown token once, plus [n] other
    symbols with [1 <= n <= max (vocab_size - 1) a], where [a] is the number
    of distinct characters of the training words (the word-start marker
    included, the unknown token excluded).  When the characters alone
    already fill [vocab_size], no merge is learned and the other symbols are
    exactly those characters. *)
Theorem vocab_size_bound (self : BPETokenizer) (corpus : list str)
  (vocab_size : Z) :
  2 <= vocab_size -> usable corpus ->
  let alphabet :=
    initial_symbols (unk_token self) (count_words corpus)
    ∖ {[ unk_token self ]} in
  exists self' others,
    train self corpus vocab_size = (Return tt, self')
    /\ PyDict.keys (vocab self') = unk_token self :: others
    /\ NoDup (unk_token self :: others)
    /\ 1 <= Z.of_nat (length others)
       <= Z.max (vocab_size - 1) (Z.of_nat (size alphabet))
    /\ (vocab_size - 1 <= Z.of_nat (size alphabet) ->
        merges self' = [] /\ forall s, In s others <-> s ∈ alphabet).
Proof.
  intros Hge Hus. cbv zeta.
  destruct (train_returns self corpus vocab_size Hge
              (proj1 (usable_count_words corpus) Hus))
    as (ms' & wf' & syms' & Hloop & ->).
  set (unk := unk_token self) in *.
  set (syms0 := initial_symbols unk (count_words corpus)) in *.
  exists {| unk_token := unk; merges := ms';
            vocab := enumerate_vocab (ordered_vocab_of unk syms') |},
    (sorted (elements (syms' ∖ {[ unk ]}))).
  cbn [vocab merges].
  pose proof (other_symbol unk corpus vocab_size _ ms' wf' syms' Hge Hus Hloop)
    as Htwo.
  assert (unk ∈ syms0) as Hunk0.
  { apply in_initial_symbols_corpus. by left. }
  apply merge_loop_result in Hloop
    as (new & -> & _ & -> & Hstop & Hsz & Hnew).
  assert (forall X : gset str, unk ∈ X -> size (X ∖ {[ unk ]}) = (size X - 1)%nat)
    as Hminus.
  { intros X HX. rewrite size_difference by set_solver.
    by rewrite size_singleton. }
  assert (length (sorted (elements
            ((syms0 ∪ list_to_set (map bigram_of new)) ∖ {[ unk ]})))
          = (size (syms0 ∪ list_to_set (map bigram_of new)) - 1)%nat) as Hlen.
  { unfold sorted. rewrite merge_sort_Permutation.
    apply Hminus. set_solver. }
  split_and!.
  - reflexivity.
  - by rewrite keys_enumerate.
  - apply ordered_vocab_NoDup.
  - rewrite Hlen. lia.
  - rewrite Hlen, (Hminus syms0 Hunk0). lia.
  - intros Hfull. rewrite (Hminus syms0 Hunk0) in Hfull.
    assert (1 <= size syms0)%nat.
    { pose proof (subseteq_size ({[ unk ]} : gset str) syms0
                    ltac:(set_solver)) as Hs.
      by rewrite size_singleton in Hs. }
    destruct new as [|best new]; [|lia]. split; [done|].
    intros s. rewrite in_sorted_symbols. simpl. set_solver.
Qed.

Lemma vocab_size_bound_witness :
  exists self' others,
    train new_tokenizer [lit "hello world"] 10 = (Return tt, self')
    /\ PyDict.keys (vocab self') = lit "<unk>" :: others
    /\ 1 <= Z.of_nat (length others) <= 9.
Proof.
  destruct (vocab_size_bound new_tokenizer [lit "hello world"] 10)
    as (self' & others & Htrain & Hkeys & _ & Hlen & _).
  - lia.
  - exact usable_hello.
  - exists self', others. split; [exact Htrain|]. split; [exact Hkeys|].
    exact Hlen.
Defined.

(** The claim as stated fails: with [vocab_size = 2] and the one-line
    corpus ["ab"], training succeeds and the vocabulary holds three symbols
    besides the unknown token, not at most [vocab_size - 1 = 1]. *)
Lemma vocab_size_two_exceeded :
  train new_tokenizer [lit "ab"] 2
  = (Return tt,
     {| unk_token := lit "<unk>"; merges := [];
        vocab := [(lit "<unk>", 0); (lit "a", 1); (lit "b", 2);
                  ([WORD_START], 3)] |})
  /\ ~ (Z.of_nat (length (vocab (snd (train new_tokenizer [lit "ab"] 2)))) - 1
        <= 2 - 1).
Proof.
  split; [reflexivity|].
  assert (length (vocab (snd (train new_tokenizer [lit "ab"] 2))) = 4%nat)
    as -> by reflexivity.
  lia.
Qed.

(** ** [encode] and [decode] as maps *)

Section codec_facts.

Lemma encode_symbols self unk_id symbols token_ids :
  PyDict.get (unk_token self) (vocab self) = Some unk_id ->
  fold_left
    (fun acc symbol =>
       match acc with
       | Return token_ids =>
           match PyDict.get (unk_token self) (vocab self) with
           | None => Raise (KeyError (unk_token self))
           | Some unk_id => Return (token_ids ++ [token_id self unk_id symbol])
           end
       | other => other
       end)
    symbols (Return token_ids)
  = Return (token_ids ++ map (token_id self unk_id) symbols).
Proof.
  intros Hunk. rewrite Hunk. revert token_ids.
  induction symbols as [|s symbols IH]; intros token_ids; simpl.
  - by rewrite app_nil_r.
  - rewrite IH. by rewrite <- app_assoc.
Qed.

Lemma encode_ok self unk_id text :
  vocab self <> [] ->
  PyDict.get (unk_token self) (vocab self) = Some unk_id ->
  encode self text = Return (encoded self unk_id text).
Proof.
  intros Hne Hunk. unfold encode, encoded.
  assert (PyDict.is_empty (vocab self) = false) as ->.
  { by destruct (vocab self). }
  enough (forall words token_ids,
            fold_left
              (fun acc word =>
                 fold_left
                   (fun acc symbol =>
                      match acc with
                      | Return token_ids =>
                          match PyDict.get (unk_token self) (vocab self) with
                          | None => Raise (KeyError (unk_token self))
                          | Some unk_id =>
                              Return (token_ids ++ [token_id self unk_id symbol])
                          end
                      | other => other
                      end)
                   (word_symbols self word) acc)
              words (Return token_ids)
            = Return
                (token_ids ++
                 flat_map
                   (fun word =>
                      map (token_id self unk_id) (word_symbols self word))
                   words)) as Hgen by (by rewrite Hgen).
  induction words as [|w words IH]; intros token_ids; simpl.
  - by rewrite app_nil_r.
  - rewrite (encode_symbols self unk_id) by done. rewrite IH.
    by rewrite <- app_assoc.
Qed.

Lemma decode_pieces {A B} (f : A -> B) (xs : list A) (acc : list B) :
  fold_left (fun pieces x => pieces ++ [f x]) xs acc = acc ++ map f xs.
Proof.
  revert acc. induction xs as [|x xs IH]; intros acc; simpl.
  - by rewrite app_nil_r.
  - rewrite IH. by rewrite <- app_assoc.
Qed.

Lemma decode_ok self token_ids :
  vocab self <> [] ->
  decode self token_ids
  = Return (strip (replace WORD_START SPACE
                     (concat (map (token_of self) token_ids)))).
Proof.
  intros Hne. unfold decode.
  assert (PyDict.is_empty (vocab self) = false) as ->.
  { by destruct (vocab self). }
  by rewrite decode_pieces.
Qed.

End codec_facts.

(** ** Tokenizers that [train] has numbered *)

Section numbered_facts.

Lemma train_numbered self corpus vocab_size self' :
  train self corpus vocab_size = (Return tt, self') ->
  exists ordered, numbered self' ordered.
Proof.
  intros (_ & _ & ms' & wf' & syms' & _ & ->)%train_return_inv.
  exists (ordered_vocab_of (unk_token self) syms').
  split; [apply ordered_vocab_NoDup|]. done.
Qed.

Lemma inverse_keys_from (k : nat) (l : list str) :
  map fst (map (fun ti : str * Z => (snd ti, fst ti))
             (imap (fun idx token => (token, Z.of_nat (k + idx))) l))
  = map Z.of_nat (seq k (length l)).
Proof.
  revert k. induction l as [|x l IH]; intros k; simpl; [done|].
  rewrite Nat.add_0_r. f_equal. rewrite <- (IH (S k)). do 2 f_equal.
  apply imap_ext. intros i y _. simpl. do 2 f_equal. lia.
Qed.

Lemma inverse_keys (l : list str) :
  map fst (map (fun ti : str * Z => (snd ti, fst ti)) (enumerate_vocab l))
  = map Z.of_nat (seq 0 (length l)).
Proof. apply (inverse_keys_from 0). Qed.

Lemma inverse_keys_NoDup (l : list str) :
  NoDup (map fst (map (fun ti : str * Z => (snd ti, fst ti))
                    (enumerate_vocab l))).
Proof.
  rewrite inverse_keys. apply (NoDup_fmap_2 Z.of_nat), NoDup_seq.
Qed.

Section with_numbered.
Context (self : BPETokenizer) (ordered : list str).
Hypothesis Hnum : numbered self ordered.

Lemma numbered_not_nil : vocab self <> [].
Proof.
  destruct Hnum as (_ & Hhd & ->). by destruct ordered.
Qed.

Lemma numbered_unk : PyDict.get (unk_token self) (vocab self) = Some 0.
Proof.
  destruct Hnum as (Hnd & Hhd & ->).
  apply (get_enumerate _ 0); [done|]. by destruct ordered.
Qed.

Lemma numbered_inverse :
  inverse_vocab self
  = map (fun ti : str * Z => (snd ti, fst ti)) (enumerate_vocab ordered).
Proof.
  destruct Hnum as (Hnd & Hhd & Hv). unfold inverse_vocab. rewrite Hv.
  apply of_items_NoDup, inverse_keys_NoDup.
Qed.

Lemma numbered_get s :
  In s ordered ->
  exists n, ordered !! n = Some s
            /\ PyDict.get s (vocab self) = Some (Z.of_nat n)
            /\ token_of self (Z.of_nat n) = s.
Proof.
  intros (n & Hn)%list_elem_of_In%list_elem_of_lookup.
  exists n. split; [done|]. pose proof Hnum as (Hnd & Hhd & Hv). split.
  - rewrite Hv. by apply get_enumerate.
  - unfold token_of. rewrite numbered_inverse.
    rewrite (get_in_NoDup _ (Z.of_nat n) s); [done| |].
    + apply inverse_keys_NoDup.
    + apply in_map_iff. exists (s, Z.of_nat n). split; [done|].
      apply list_elem_of_In.
      by apply (elem_of_lookup_imap_2 (fun idx token => (token, Z.of_nat idx))).
Qed.

Lemma numbered_get_None s :
  ~ In s ordered -> PyDict.get s (vocab self) = None.
Proof.
  intros Hn. destruct Hnum as (_ & _ & ->). apply get_None.
  by rewrite keys_enumerate.
Qed.

Lemma numbered_in_keys s : In s (PyDict.keys (vocab self)) <-> In s ordered.
Proof. destruct Hnum as (_ & _ & ->). by rewrite keys_enumerate. Qed.

Lemma numbered_inverse_None idx :
  PyDict.get idx (inverse_vocab self) = None
  <-> ~ (0 <= idx < Z.of_nat (length (vocab self))).
Proof.
  rewrite get_None, numbered_inverse. unfold PyDict.keys.
  rewrite inverse_keys, in_map_iff.
  destruct Hnum as (_ & _ & ->). unfold enumerate_vocab. rewrite length_imap.
  split.
  - intros Hn Hidx. apply Hn. exists (Z.to_nat idx).
    split; [lia|]. apply in_seq. lia.
  - intros Hn (n & <- & Hin%in_seq). lia.
Qed.

Lemma numbered_encode text : encode self text = Return (encoded self 0 text).
Proof. apply encode_ok; [apply numbered_not_nil|apply numbered_unk]. Qed.

Lemma numbered_decode token_ids :
  decode self token_ids
  = Return (strip (replace WORD_START SPACE
                     (concat (map (token_of self) token_ids)))).
Proof. apply decode_ok, numbered_not_nil. Qed.

End with_numbered.

End numbered_facts.

(** ** The guard on an untrained tokenizer *)

(** C5.  With an empty vocabulary [encode] and [decode] raise the
    not-trained error on every input, the empty text and the empty id list
    included; on the tokenizer a normal return of [train] leaves, both
    return a value for every input. *)
Theorem guard_before_and_after_training :
  (forall self text, vocab self = [] -> encode self text = Raise NotTrained)
  /\ (forall self token_ids,
        vocab self = [] -> decode self token_ids = Raise NotTrained)
  /\ (forall self corpus vocab_size self',
        train self corpus vocab_size = (Return tt, self') ->
        (forall text, exists token_ids, encode self' text = Return token_ids)
        /\ (forall token_ids, exists text,
              decode self' token_ids = Return text)).
Proof.
  split_and!.
  - intros self text Hv. unfold encode. by rewrite Hv.
  - intros self token_ids Hv. unfold decode. by rewrite Hv.
  - intros self corpus vocab_size self' [ordered Hnum]%train_numbered. split.
    + intros text. eexists. by apply (numbered_encode self' ordered).
    + intros token_ids. eexists. by apply (numbered_decode self' ordered).
Qed.

Lemma guard_before_and_after_training_witness :
  encode new_tokenizer [] = Raise NotTrained
  /\ decode new_tokenizer [] = Raise NotTrained
  /\ (exists token_ids,
        encode (snd (train new_tokenizer [lit "hello world"] 10))
          (lit "unknown token") = Return token_ids)
  /\ (exists text,
        decode (snd (train new_tokenizer [lit "hello world"] 10)) [0; 99; -1]
        = Return text).
Proof.
  destruct guard_before_and_after_training as (Henc & Hdec & Htrained).
  split; [by apply Henc|]. split; [by apply Hdec|].
  destruct (Htrained new_tokenizer [lit "hello world"] 10
              (snd (train new_tokenizer [lit "hello world"] 10)) eq_refl)
    as [He Hd].
  split; [apply He|apply Hd].
Defined.

(** ** One merge step *)

(** C6.  [_apply_merge] is the single greedy left-to-right pass of the
    specification, and so is the loop that [_merge_vocab] runs on every
    word of the frequency table.  The pass is made once: on the symbols
    [a], empty, empty and the pair of [a] and the empty string, one pass
    leaves [a], empty, which a second pass would merge again. *)
Theorem merge_is_one_greedy_pass :
  (forall symbols pair, _apply_merge symbols pair = greedy_scan pair symbols)
  /\ (forall pair (word_freqs : PyDict.dict Word Z),
        _merge_vocab pair word_freqs
        = fold_left
            (fun merged_vocab wf =>
               PyDict.add (greedy_scan pair (fst wf)) (snd wf) merged_vocab)
            word_freqs [])
  /\ (forall (pair : Pair) a b rest,
        greedy_scan pair [] = []
        /\ greedy_scan pair [a] = [a]
        /\ ((a, b) = pair ->
            greedy_scan pair (a :: b :: rest)
            = bigram_of pair :: greedy_scan pair rest)
        /\ ((a, b) <> pair ->
            greedy_scan pair (a :: b :: rest)
            = a :: greedy_scan pair (b :: rest)))
  /\ _apply_merge [lit "a"; []; []] (lit "a", []) = [lit "a"; []]
  /\ _apply_merge [lit "a"; []] (lit "a", []) = [lit "a"].
Proof.
  split_and!.
  - apply apply_merge_scan.
  - apply merge_vocab_scan.
  - intros pair a b rest. split_and!; try reflexivity.
    + intros Hab. rewrite scan_cons2. by rewrite bool_decide_eq_true_2.
    + intros Hab. rewrite scan_cons2. by rewrite bool_decide_eq_false_2.
  - reflexivity.
  - reflexivity.
Qed.

Lemma merge_is_one_greedy_pass_witness :
  greedy_scan (lit "a", lit "b") [lit "a"; lit "b"; lit "a"; lit "b"; lit "c"]
  = [lit "ab"; lit "ab"; lit "c"]
  /\ greedy_scan (lit "a", lit "a") [lit "a"; lit "a"; lit "a"]
     = [lit "aa"; lit "a"].
Proof.
  destruct merge_is_one_greedy_pass as (_ & _ & Hscan & _).
  split.
  - destruct (Hscan (lit "a", lit "b") (lit "a") (lit "b")
                [lit "a"; lit "b"; lit "c"]) as (_ & _ & Hyes & _).
    rewrite Hyes by reflexivity. reflexivity.
  - destruct (Hscan (lit "a", lit "a") (lit "a") (lit "a") [lit "a"])
      as (_ & _ & Hyes & _).
    rewrite Hyes by reflexivity. reflexivity.
Defined.

(** ** Symbols after the merges *)

Section merges_facts.

Lemma apply_merges_scan ms symbols :
  apply_merges ms symbols
  = fold_left (fun l pair => greedy_scan pair l) ms symbols.
Proof.
  unfold apply_merges. revert symbols.
  induction ms as [|p ms IH]; intros symbols; simpl; [done|].
  by rewrite apply_merge_scan, IH.
Qed.

Lemma apply_merges_concat ms symbols :
  concat (apply_merges ms symbols) = concat symbols.
Proof.
  rewrite apply_merges_scan. revert symbols.
  induction ms as [|p ms IH]; intros symbols; simpl; [done|].
  by rewrite IH, scan_concat.
Qed.

Lemma apply_merges_in (ms : list Pair) symbols s :
  In s (apply_merges ms symbols) ->
  In s symbols \/ exists pair, In pair ms /\ s = bigram_of pair.
Proof.
  rewrite apply_merges_scan. revert symbols.
  induction ms as [|p ms IH]; intros symbols; simpl; [by left|].
  intros [Hin|(pair & Hp & ->)]%IH.
  - apply scan_in in Hin as [?| ->]; [by left|]. right. exists p. auto.
  - right. exists pair. auto.
Qed.

Lemma apply_merges_snoc (ms : list Pair) symbols e :
  Forall (fun pair => snd pair <> e) ms ->
  apply_merges ms (symbols ++ [e]) = apply_merges ms symbols ++ [e].
Proof.
  rewrite !apply_merges_scan. revert symbols.
  induction ms as [|p ms IH]; intros symbols Hall; simpl; [done|].
  apply Forall_cons in Hall as [Hp Hall].
  by rewrite scan_snoc, IH.
Qed.

Lemma clean_single (c : N) : clean_symbol [c] = [c].
Proof.
  unfold clean_symbol, endswith. simpl. by case_bool_decide.
Qed.

Lemma word_symbols_in self word s :
  In s (word_symbols self word) ->
  s <> EOW
  /\ ((exists c, In c word /\ s = [c])
      \/ exists pair, In pair (merges self) /\ s = bigram_of pair).
Proof.
  unfold word_symbols.
  intros [Hne Hin%list_elem_of_In]%list_elem_of_In%list_elem_of_filter.
  split; [done|].
  apply apply_merges_in in Hin as [Hin|?]; [|by right].
  apply in_symbols_of in Hin as [?|?]; [by left|done].
Qed.

(** The keys of the vocabulary after training. *)
Lemma trained_keys self corpus vocab_size self' s :
  train self corpus vocab_size = (Return tt, self') ->
  In s (PyDict.keys (vocab self'))
  <-> s = unk_token self'
      \/ (exists line word c,
            In line corpus /\ In word (words_of line) /\ In c word /\ s = [c])
      \/ (exists pair, In pair (merges self') /\ s = bigram_of pair).
Proof.
  intros (_ & _ & ms' & wf' & syms' & Hloop & ->)%train_return_inv.
  cbn [unk_token vocab merges].
  apply merge_loop_result in Hloop as (new & -> & _ & -> & _).
  rewrite keys_enumerate, in_ordered_vocab, elem_of_union,
    in_initial_symbols_corpus, elem_of_list_to_set, list_elem_of_In,
    in_map_iff.
  simpl. split.
  - intros [?|[[?|?]|(p & <- & ?)]]; eauto.
  - intros [?|[?|(p & ? & ->)]]; eauto.
Qed.

End merges_facts.

(** ** Unknown symbols and ids *)

Section unknown_facts.

Lemma encoded_map self unk_id text :
  encoded self unk_id text
  = map (token_id self unk_id)
      (flat_map (word_symbols self) (words_of text)).
Proof.
  unfold encoded. induction (words_of text) as [|w ws IH]; simpl; [done|].
  by rewrite map_app, IH.
Qed.

Lemma in_flat_map_lookup {A B} (f : A -> list B) (xs : list A) n y :
  flat_map f xs !! n = Some y -> exists x, In x xs /\ In y (f x).
Proof.
  intros Hn. apply in_flat_map, list_elem_of_In.
  apply list_elem_of_lookup. eauto.
Qed.

Lemma count_zero_filter {A} (f : A -> Z) (P : A -> bool) (xs : list A) :
  (forall x, In x xs -> P x = true -> f x = 0) ->
  (length (List.filter P xs) <= count_occ Z.eq_dec (map f xs) 0%Z)%nat.
Proof.
  induction xs as [|x xs IH]; intros Hall; simpl; [lia|].
  assert (length (List.filter P xs) <= count_occ Z.eq_dec (map f xs) 0%Z)%nat
    as IH' by (apply IH; intros y Hy HP; apply Hall; [by right|done]).
  destruct (P x) eqn:E; simpl.
  - rewrite (Hall x) by (by left || done).
    destruct (Z.eq_dec 0 0); [lia|done].
  - destruct (Z.eq_dec (f x) 0); lia.
Qed.

(** A symbol that is left after the merges and is no symbol of the
    training words, or is not in the vocabulary, gets the id 0. *)
Lemma unrecognized_id self corpus vocab_size self' word s :
  train self corpus vocab_size = (Return tt, self') ->
  In s (word_symbols self' word) ->
  ~ In s (PyDict.keys (vocab self'))
  \/ ~ occurs_in_training corpus (merges self') s ->
  token_id self' 0 s = 0.
Proof.
  intros Htrain Hs Habs.
  pose proof (trained_keys self corpus vocab_size self' s Htrain) as Hkeys.
  destruct (train_numbered _ _ _ _ Htrain) as [ordered Hnum].
  apply word_symbols_in in Hs as [Hne [(c & Hc & ->)|Hbig]].
  2:{ destruct Habs as [Hn|Hn]; destruct Hn.
      - apply Hkeys. auto.
      - right. by right. }
  unfold token_id. rewrite clean_single.
  destruct (PyDict.get [c] (vocab self')) as [i|] eqn:E; [|done]. simpl.
  assert (In [c] (PyDict.keys (vocab self'))) as Hin.
  { apply get_Some_in in E. unfold PyDict.keys. apply in_map_iff.
    by exists ([c], i). }
  destruct Habs as [Hn|Hn]; [done|].
  apply Hkeys in Hin as [Hunk|Hocc].
  - rewrite Hunk, (numbered_unk self' ordered Hnum) in E. congruence.
  - destruct Hn. by right.
Qed.

End unknown_facts.

(** C9.  On the tokenizer a normal return of [train] leaves, the unknown
    token has id 0 and neither an unknown symbol nor an unknown id is an
    error.  [encode] returns one id per symbol left after the merges, and
    that id is 0 wherever the symbol is absent from the vocabulary or is no
    symbol of any training word, so 0 occurs at least once per such symbol.
    [decode] returns the text built from one piece per id, and the piece of
    an id outside the vocabulary's range is the unknown token. *)
Theorem unknown_substitution (self self' : BPETokenizer) (corpus : list str)
  (vocab_size : Z) :
  train self corpus vocab_size = (Return tt, self') ->
  PyDict.get (unk_token self') (vocab self') = Some 0
  /\ (forall text,
        let symbols := flat_map (word_symbols self') (words_of text) in
        exists token_ids,
          encode self' text = Return token_ids
          /\ length token_ids = length symbols
          /\ (forall n s,
                symbols !! n = Some s ->
                ~ In s (PyDict.keys (vocab self'))
                \/ ~ occurs_in_training corpus (merges self') s ->
                token_ids !! n = Some 0)
          /\ (length
                (List.filter
                   (fun s =>
                      bool_decide (~ In s (PyDict.keys (vocab self'))))
                   symbols)
              <= count_occ Z.eq_dec token_ids 0%Z)%nat)
  /\ (forall token_ids,
        decode self' token_ids
        = Return (strip (replace WORD_START SPACE
                           (concat (map (token_of self') token_ids)))))
  /\ (forall idx,
        (PyDict.get idx (inverse_vocab self') = None
         <-> ~ (0 <= idx < Z.of_nat (length (vocab self'))))
        /\ (PyDict.get idx (inverse_vocab self') = None ->
            token_of self' idx = unk_token self')).
Proof.
  intros Htrain.
  destruct (train_numbered _ _ _ _ Htrain) as [ordered Hnum].
  split_and!.
  - by apply (numbered_unk self' ordered).
  - intros text. cbv zeta. exists (encoded self' 0 text). split_and!.
    + by apply (numbered_encode self' ordered).
    + by rewrite encoded_map, length_map.
    + intros n s Hn Habs. rewrite encoded_map.
      change (map ?f ?l) with (f <$> l). rewrite list_lookup_fmap, Hn. simpl.
      f_equal. apply in_flat_map_lookup in Hn as (word & _ & Hs).
      by apply (unrecognized_id self corpus vocab_size self' word).
    + rewrite encoded_map. apply count_zero_filter.
      intros s (word & _ & Hs)%in_flat_map Hb%bool_decide_eq_true.
      apply (unrecognized_id self corpus vocab_size self' word); auto.
  - intros token_ids. by apply (numbered_decode self' ordered).
  - intros idx. split.
    + by apply (numbered_inverse_None self' ordered).
    + intros Hidx. unfold token_of. by rewrite Hidx.
Qed.

Lemma unknown_substitution_witness :
  let self' := snd (train new_tokenizer [lit "hello world"] 10) in
  encode self' (lit "unknown token")
  = Return [8; 0; 0; 0; 0; 5; 7; 0; 8; 0; 5; 0; 2; 0]
  /\ decode self' [99] = Return (lit "<unk>")
  /\ PyDict.get (unk_token self') (vocab self') = Some 0.
Proof.
  cbv zeta.
  destruct (unknown_substitution new_tokenizer
              (snd (train new_tokenizer [lit "hello world"] 10))
              [lit "hello world"] 10 eq_refl)
    as (Hunk & _ & _ & _).
  split; [reflexivity|]. split; [reflexivity|]. exact Hunk.
Defined.

(** ** Stripping, splitting and joining *)

Section string_facts.

Lemma lstrip_spaces (ws s : str) :
  Forall (fun c => isspace c = true) ws -> lstrip (ws ++ s) = lstrip s.
Proof.
  induction 1 as [|c ws Hc _ IH]; simpl; [done|]. by rewrite Hc.
Qed.

Lemma lstrip_split (s : str) :
  exists ws, s = ws ++ lstrip s /\ Forall (fun c => isspace c = true) ws.
Proof.
  induction s as [|c s (ws & Hs & Hws)]; simpl.
  - by exists [].
  - destruct (isspace c) eqn:E.
    + exists (c :: ws). split; [simpl; congruence|]. by constructor.
    + by exists [].
Qed.

Lemma lstrip_head (s : str) :
  lstrip s = [] \/ exists c r, lstrip s = c :: r /\ isspace c = false.
Proof.
  induction s as [|c s IH]; simpl; [by left|].
  destruct (isspace c) eqn:E; [done|]. right. eauto.
Qed.

Lemma lstrip_length (s : str) : (length (lstrip s) <= length s)%nat.
Proof.
  induction s as [|c s IH]; simpl; [lia|]. destruct (isspace c); simpl; lia.
Qed.

Lemma lstrip_id (c : N) (r : str) : isspace c = false -> lstrip (c :: r) = c :: r.
Proof. intros Hc. simpl. by rewrite Hc. Qed.

Lemma rstrip_nil : rstrip [] = [].
Proof. reflexivity. Qed.

Lemma rstrip_snoc (s : str) (c : N) :
  isspace c = false -> rstrip (s ++ [c]) = s ++ [c].
Proof.
  intros Hc. unfold rstrip. rewrite rev_app_distr. simpl. rewrite Hc.
  simpl. by rewrite rev_involutive.
Qed.

Lemma rstrip_spaces (s ws : str) :
  Forall (fun c => isspace c = true) ws -> rstrip (s ++ ws) = rstrip s.
Proof.
  intros Hws. unfold rstrip. rewrite rev_app_distr, lstrip_spaces; [done|].
  rewrite Forall_forall in *. intros c Hc. apply Hws.
  apply list_elem_of_In, in_rev. by apply list_elem_of_In.
Qed.

Lemma rstrip_split (s : str) :
  exists ws, s = rstrip s ++ ws /\ Forall (fun c => isspace c = true) ws.
Proof.
  destruct (lstrip_split (rev s)) as (ws & Hs & Hws).
  exists (rev ws). split.
  - unfold rstrip. rewrite <- rev_app_distr, <- Hs. by rewrite rev_involutive.
  - rewrite Forall_forall in *. intros c Hc. apply Hws.
    apply list_elem_of_In, in_rev. by apply list_elem_of_In.
Qed.

Lemma rstrip_last (s : str) :
  rstrip s = [] \/ exists r c, rstrip s = r ++ [c] /\ isspace c = false.
Proof.
  unfold rstrip. destruct (lstrip_head (rev s)) as [->|(c & r & -> & Hc)].
  - by left.
  - right. exists (rev r), c. by simpl.
Qed.

Lemma rstrip_app (a b : str) :
  rstrip b <> [] -> rstrip (a ++ b) = a ++ rstrip b.
Proof.
  intros Hne. destruct (rstrip_split b) as (ws & Hb & Hws).
  destruct (rstrip_last b) as [?|(r & c & Hr & Hc)]; [done|].
  rewrite Hb at 1. rewrite app_assoc, rstrip_spaces by done.
  rewrite Hr, app_assoc. by apply rstrip_snoc.
Qed.

Lemma rstrip_app_spaces (a b : str) :
  rstrip b = [] -> rstrip (a ++ b) = rstrip a.
Proof.
  intros Hnil. destruct (rstrip_split b) as (ws & Hb & Hws).
  rewrite Hnil in Hb. simpl in Hb. subst b. by apply rstrip_spaces.
Qed.

Lemma rstrip_nonspace (s : str) :
  Forall (fun c => isspace c = false) s -> rstrip s = s.
Proof.
  intros Hs. destruct s as [|c s] using rev_ind; [done|].
  apply rstrip_snoc. apply Forall_app in Hs as [_ Hc].
  apply Forall_inv in Hc. exact Hc.
Qed.

Lemma split_go_spaces (cur s ws : str) :
  Forall (fun c => isspace c = true) ws ->
  split_go cur (s ++ ws) = split_go cur s.
Proof.
  intros Hws. revert cur. induction s as [|c s IH]; intros cur; simpl.
  - revert cur. induction Hws as [|c ws Hc _ IH]; intros cur; simpl; [done|].
    rewrite Hc. destruct cur; rewrite IH; done.
  - destruct (isspace c); [|apply IH]. destruct cur; by rewrite IH.
Qed.

Lemma split_lstrip (s : str) : split (lstrip s) = split s.
Proof.
  unfold split. induction s as [|c s IH]; simpl; [done|].
  destruct (isspace c) eqn:E; [done|]. simpl. by rewrite E.
Qed.

Lemma split_strip (s : str) : split (strip s) = split s.
Proof.
  unfold strip. rewrite <- (split_lstrip s).
  destruct (rstrip_split (lstrip s)) as (ws & Hs & Hws).
  rewrite Hs at 2. unfold split. by rewrite split_go_spaces.
Qed.

Lemma split_go_words (cur s : str) w :
  Forall (fun c => isspace c = false) cur ->
  In w (split_go cur s) ->
  w <> [] /\ Forall (fun c => isspace c = false) w.
Proof.
  revert cur. induction s as [|c s IH]; intros cur Hcur; simpl.
  - destruct cur as [|x cur]; [done|]. by intros [<-|[]].
  - destruct (isspace c) eqn:E.
    + destruct cur as [|x cur]; [by apply IH|].
      intros [<-|Hin]; [done|]. by apply (IH []).
    + apply IH. apply Forall_app. split; [done|]. by constructor.
Qed.

Lemma split_words (s : str) w :
  In w (split s) -> w <> [] /\ Forall (fun c => isspace c = false) w.
Proof. by apply split_go_words. Qed.

Lemma join_cons (sep w : str) (ws : list str) :
  ws <> [] -> join sep (w :: ws) = w ++ sep ++ join sep ws.
Proof. by destruct ws. Qed.

Lemma join_not_nil (sep w : str) (ws : list str) :
  w <> [] -> join sep (w :: ws) <> [].
Proof.
  intros Hw. destruct ws; simpl; [done|]. by destruct w.
Qed.

Lemma collapse_run (s : str) :
  collapse_ws true s = collapse_ws false (lstrip s).
Proof.
  induction s as [|c s IH]; simpl; [done|].
  destruct (isspace c) eqn:E; [done|]. simpl. by rewrite E.
Qed.

Lemma collapse_lstrip (s : str) :
  lstrip (collapse_ws false s) = collapse_ws false (lstrip s).
Proof.
  destruct s as [|c s]; simpl; [done|].
  destruct (isspace c) eqn:E; simpl.
  - rewrite collapse_run.
    destruct (lstrip_head s) as [->|(x & r & -> & Hx)]; [done|].
    simpl. rewrite Hx. simpl. by rewrite Hx.
  - by rewrite E.
Qed.

Lemma collapse_join (s cur : str) :
  Forall (fun c => isspace c = false) cur ->
  cur <> [] \/ lstrip s = s ->
  rstrip (cur ++ collapse_ws false s) = join [SPACE] (split_go cur s).
Proof.
  remember (length s) as n eqn:Hn. revert s cur Hn.
  induction n as [n IH] using lt_wf_ind. intros s cur -> Hcur Hstart.
  destruct s as [|c r]; simpl.
  - rewrite app_nil_r, rstrip_nonspace by done. by destruct cur.
  - destruct (isspace c) eqn:E.
    + destruct Hstart as [Hne|Hs]; [|simpl in Hs; rewrite E in Hs].
      2:{ pose proof (lstrip_length r) as Hl. rewrite Hs in Hl.
          simpl in Hl. lia. }
      rewrite collapse_run.
      assert (split_go [] r = split_go [] (lstrip r)) as Hsplit.
      { symmetry. apply split_lstrip. }
      assert (rstrip (collapse_ws false (lstrip r))
              = join [SPACE] (split_go [] (lstrip r))) as Hrest.
      { assert (length (lstrip r) < length (c :: r))%nat as Hlt.
        { pose proof (lstrip_length r). simpl. lia. }
        apply (IH (length (lstrip r)) Hlt (lstrip r) [] eq_refl); [done|].
        right. destruct (lstrip_head r) as [->|(x & r' & -> & Hx)];
          [done|]. by apply lstrip_id. }
      destruct cur as [|x cur]; [done|]. rewrite Hsplit.
      destruct (split_go [] (lstrip r)) as [|w ws] eqn:Hws.
      * simpl in Hrest.
        change (?a ++ SPACE :: ?b) with (a ++ [SPACE] ++ b).
        rewrite app_assoc, rstrip_app_spaces by done.
        rewrite (rstrip_spaces _ [SPACE]) by (by constructor).
        by apply rstrip_nonspace.
      * assert (w <> []) as Hw.
        { apply (split_go_words [] (lstrip r) w); [done|].
          rewrite Hws. by left. }
        rewrite join_cons by done.
        change (?a ++ SPACE :: ?b) with (a ++ [SPACE] ++ b).
        rewrite app_assoc, rstrip_app.
        -- rewrite Hrest. by rewrite <- app_assoc.
        -- rewrite Hrest. by apply join_not_nil.
    + change (cur ++ c :: ?b) with (cur ++ [c] ++ b). rewrite app_assoc.
      apply (IH (length r) ltac:(simpl; lia) r (cur ++ [c]) eq_refl).
      * apply Forall_app. split; [done|]. by constructor.
      * left. by destruct cur.
Qed.

(** Whitespace normalization is [" ".join(text.split())]. *)
Lemma normalize_join (text : str) :
  normalize_ws text = join [SPACE] (split text).
Proof.
  unfold normalize_ws, strip. rewrite collapse_lstrip.
  rewrite <- (split_lstrip text). unfold split.
  rewrite <- (collapse_join (lstrip text) []); [done|done|].
  right. destruct (lstrip_head text) as [->|(x & r & -> & Hx)]; [done|].
  by apply lstrip_id.
Qed.

Lemma rstrip_spaced_words (w : str) (ws : list str) :
  w <> [] -> Forall (fun c => isspace c = false) w ->
  Forall (fun w => w <> [] /\ Forall (fun c => isspace c = false) w) ws ->
  rstrip (w ++ concat (map (cons SPACE) ws)) = join [SPACE] (w :: ws).
Proof.
  intros Hw Hwn Hall. revert w Hw Hwn.
  induction Hall as [|w2 ws [Hw2 Hw2n] Hall IH]; intros w Hw Hwn.
  - simpl. rewrite app_nil_r. by apply rstrip_nonspace.
  - rewrite join_cons by done. cbn [map concat].
    specialize (IH w2 Hw2 Hw2n).
    change (w ++ (SPACE :: w2) ++ ?t) with (w ++ [SPACE] ++ w2 ++ t).
    rewrite app_assoc, rstrip_app.
    + rewrite IH. by rewrite <- app_assoc.
    + rewrite IH. by apply join_not_nil.
Qed.

(** Stripping the decoded text gives the words joined by single spaces. *)
Lemma strip_spaced_words (ws : list str) :
  Forall (fun w => w <> [] /\ Forall (fun c => isspace c = false) w) ws ->
  strip (concat (map (cons SPACE) ws)) = join [SPACE] ws.
Proof.
  destruct ws as [|w ws]; [done|]. intros Hall.
  apply Forall_cons in Hall as [[Hw Hwn] Hall].
  change (concat (map (cons SPACE) (w :: ws)))
    with ([SPACE] ++ w ++ concat (map (cons SPACE) ws)).
  unfold strip. rewrite (lstrip_spaces [SPACE]) by (by constructor).
  destruct w as [|c w]; [done|].
  change ((c :: w) ++ ?t) with (c :: (w ++ t)).
  rewrite lstrip_id by (by apply Forall_cons in Hwn as [? _]).
  by apply (rstrip_spaced_words (c :: w)).
Qed.

End string_facts.

(** ** The round trip *)

Section roundtrip_facts.

Lemma in_concat_infix (l : list str) (s : str) :
  In s l -> exists pre post, concat l = pre ++ s ++ post.
Proof.
  intros (l1 & l2 & ->)%in_split. exists (concat l1), (concat l2).
  by rewrite concat_app.
Qed.

Lemma filter_all {A} (P : A -> Prop) `{forall x, Decision (P x)} (l : list A) :
  Forall P l -> filter P l = l.
Proof.
  induction 1 as [|x l Hx _ IH]; [done|].
  by rewrite filter_cons_True, IH.
Qed.

Lemma body_no_eow (ms : list Pair) (word s : str) :
  ~ contains_eow word ->
  In s (apply_merges ms (map (fun c => [c]) word)) ->
  s <> EOW /\ clean_symbol s = s.
Proof.
  intros Hn (pre & post & Hcat)%in_concat_infix.
  rewrite apply_merges_concat, concat_singletons in Hcat. split.
  - intros ->. apply Hn. by exists pre, post.
  - unfold clean_symbol, endswith. case_bool_decide as Hend; [|done].
    destruct Hn. exists (pre ++ take (length s - length EOW) s), post.
    pose proof (take_drop (length s - length EOW) s) as Htd.
    rewrite Hend in Htd.
    rewrite Hcat, <- !app_assoc. f_equal. by rewrite app_assoc, Htd.
Qed.

Lemma word_symbols_body self (word : str) :
  Forall (fun pair : Pair => snd pair <> EOW) (merges self) ->
  ~ contains_eow word ->
  word_symbols self word
  = apply_merges (merges self) (map (fun c => [c]) word).
Proof.
  intros Hms Hn. unfold word_symbols, symbols_of.
  rewrite apply_merges_snoc by done. rewrite filter_app.
  rewrite filter_all.
  - rewrite filter_cons, decide_False by (intros ?; done). apply app_nil_r.
  - apply Forall_forall. intros s Hs%list_elem_of_In.
    by apply (body_no_eow (merges self) word s).
Qed.

Lemma replace_plain (w : str) :
  ~ In WORD_START w -> replace WORD_START SPACE w = w.
Proof.
  unfold replace. induction w as [|c w IH]; simpl; [done|].
  intros Hn. rewrite IH by tauto.
  destruct (N.eqb_spec c WORD_START) as [->|?]; [|done].
  destruct Hn. by left.
Qed.

Lemma replace_words (ws : list str) :
  Forall (fun w => ~ In WORD_START w) ws ->
  replace WORD_START SPACE (concat (map (cons WORD_START) ws))
  = concat (map (cons SPACE) ws).
Proof.
  induction 1 as [|w ws Hw _ IH]; [done|].
  cbn [map concat]. unfold replace in *. rewrite map_app, IH. f_equal.
  simpl. f_equal. by apply replace_plain.
Qed.

Lemma concat_flat_map {A} (f : A -> list str) (g : A -> str) (l : list A) :
  (forall x, In x l -> concat (f x) = g x) ->
  concat (flat_map f l) = concat (map g l).
Proof.
  induction l as [|x l IH]; intros Hall; simpl; [done|].
  rewrite concat_app, Hall by (by left). f_equal.
  apply IH. intros y Hy. apply Hall. by right.
Qed.

Lemma words_of_split (text : str) :
  words_of text = map (cons WORD_START) (split text).
Proof.
  unfold words_of. rewrite split_strip. f_equal. apply filter_all.
  apply Forall_forall. intros w Hw%list_elem_of_In.
  by apply split_words in Hw as [? _].
Qed.

(** Decoding what [encode] returns, when every word is plain and every
    symbol left after the merges is in the vocabulary. *)
Lemma roundtrip_core self ordered (text : str) :
  numbered self ordered ->
  Forall (fun pair : Pair => snd pair <> EOW) (merges self) ->
  (forall w, In w (split (strip text)) -> plain_word w) ->
  (forall word s,
     In word (words_of text) -> In s (word_symbols self word) ->
     In s (PyDict.keys (vocab self))) ->
  decode self (encoded self 0 text) = Return (normalize_ws text).
Proof.
  intros Hnum Hms Hplain Hknown.
  rewrite (numbered_decode self ordered Hnum). f_equal.
  rewrite split_strip in Hplain.
  assert (forall word, In word (words_of text) -> ~ contains_eow word)
    as Hwords.
  { intros word. rewrite words_of_split.
    intros (w & <- & Hw)%in_map_iff.
    apply contains_eow_cons. by apply Hplain. }
  assert (map (token_of self) (encoded self 0 text)
          = flat_map (word_symbols self) (words_of text)) as ->.
  { rewrite encoded_map, map_map. rewrite <- (map_id (flat_map _ _)) at 2.
    apply map_ext_in. intros s (word & Hword & Hs)%in_flat_map.
    pose proof (Hknown word s Hword Hs) as Hin.
    apply (numbered_in_keys self ordered Hnum) in Hin.
    destruct (numbered_get self ordered Hnum s Hin) as (n & _ & Hget & Htok).
    rewrite word_symbols_body in Hs by auto.
    apply body_no_eow in Hs as [_ Hclean]; [|by apply Hwords].
    unfold token_id. rewrite Hclean, Hget. simpl. exact Htok. }
  rewrite (concat_flat_map _ (fun word => word)).
  2:{ intros word Hword. rewrite word_symbols_body by auto.
      by rewrite apply_merges_concat, concat_singletons. }
  rewrite map_id, words_of_split, replace_words.
  - rewrite strip_spaced_words, normalize_join; [done|].
    apply Forall_forall. intros w Hw%list_elem_of_In.
    by apply split_words in Hw.
  - apply Forall_forall. intros w Hw%list_elem_of_In.
    by apply Hplain in Hw as [? _].
Qed.

Lemma trained_merges self corpus vocab_size self' :
  train self corpus vocab_size = (Return tt, self') ->
  Forall (fun pair : Pair => snd pair <> EOW) (merges self').
Proof.
  intros (_ & _ & ms' & wf' & syms' & Hloop & ->)%train_return_inv.
  apply merge_loop_result in Hloop as (new & -> & Hnew & _). simpl.
  eapply Forall_impl; [exact Hnew|]. by intros p [_ ?].
Qed.

End roundtrip_facts.

Lemma plain_words_check (ws : list str) :
  forallb (fun w => bool_decide (~ In WORD_START w /\ ~ In 60%N w)) ws = true ->
  forall w, In w ws -> plain_word w.
Proof.
  rewrite forallb_forall. intros Hall w Hw.
  apply Hall, bool_decide_eq_true in Hw as [Hs Hlt].
  split; [done|]. intros Hc. by apply Hlt, contains_eow_lt.
Qed.

(** C1, as amended.  On the tokenizer a normal return of [train] leaves,
    take a text whose words hold neither the word-start marker U+2581 nor
    the text of the end-of-word marker.  If every symbol left after the
    merges is in the vocabulary, [decode (encode text)] is the text with
    its runs of whitespace collapsed to single spaces and its outer
    whitespace removed.  This is so in particular for every such text that
    is a line of the training corpus. *)
Theorem roundtrip (self self' : BPETokenizer) (corpus : list str)
  (vocab_size : Z) :
  train self corpus vocab_size = (Return tt, self') ->
  (forall text,
     (forall w, In w (split (strip text)) -> plain_word w) ->
     (forall word s,
        In word (words_of text) -> In s (word_symbols self' word) ->
        In s (PyDict.keys (vocab self'))) ->
     exists token_ids,
       encode self' text = Return token_ids
       /\ decode self' token_ids = Return (normalize_ws text))
  /\ (forall text,
        In text corpus ->
        (forall w, In w (split (strip text)) -> plain_word w) ->
        exists token_ids,
          encode self' text = Return token_ids
          /\ decode self' token_ids = Return (normalize_ws text)).
Proof.
  intros Htrain.
  destruct (train_numbered _ _ _ _ Htrain) as [ordered Hnum].
  pose proof (trained_merges _ _ _ _ Htrain) as Hms.
  assert (forall text,
            (forall w, In w (split (strip text)) -> plain_word w) ->
            (forall word s,
               In word (words_of text) -> In s (word_symbols self' word) ->
               In s (PyDict.keys (vocab self'))) ->
            exists token_ids,
              encode self' text = Return token_ids
              /\ decode self' token_ids = Return (normalize_ws text))
    as Hgeneral.
  { intros text Hplain Hknown. exists (encoded self' 0 text). split.
    - by apply (numbered_encode self' ordered).
    - by apply (roundtrip_core self' ordered). }
  split; [exact Hgeneral|].
  intros text Hline Hplain. apply Hgeneral; [done|].
  intros word s Hword Hs.
  apply (trained_keys self corpus vocab_size self' s Htrain).
  apply word_symbols_in in Hs as [_ [(c & Hc & ->)|Hbig]].
  - right. left. exists text, word, c. auto.
  - right. by right.
Qed.

Lemma roundtrip_witness :
  exists token_ids,
    encode (snd (train new_tokenizer
                   [lit "the quick brown fox"; lit "the quick blue hare"] 30))
      (lit "the quick brown fox") = Return token_ids
    /\ decode (snd (train new_tokenizer
                      [lit "the quick brown fox"; lit "the quick blue hare"]
                      30))
         token_ids
       = Return (normalize_ws (lit "the quick brown fox")).
Proof.
  apply (proj2 (roundtrip new_tokenizer
                  (snd (train new_tokenizer
                          [lit "the quick brown fox";
                           lit "the quick blue hare"] 30))
                  [lit "the quick brown fox"; lit "the quick blue hare"] 30
                  eq_refl)).
  - by left.
  - apply plain_words_check. reflexivity.
Defined.

(** The claim as stated fails for a text that holds the word-start marker
    itself, even when the text is a training line and every symbol is in
    the vocabulary: [decode] turns the marker into a space. *)
Lemma roundtrip_marker_text_fails :
  let text := lit "a" ++ [WORD_START] ++ lit "b" in
  let self' := snd (train new_tokenizer [text] 10) in
  train new_tokenizer [text] 10 = (Return tt, self')
  /\ forallb
       (fun s => bool_decide (In s (PyDict.keys (vocab self'))))
       (flat_map (word_symbols self') (words_of text)) = true
  /\ normalize_ws text = text
  /\ exists token_ids,
       encode self' text = Return token_ids
       /\ decode self' token_ids = Return (lit "a b")
       /\ lit "a b" <> normalize_ws text.
Proof.
  cbv zeta. split; [reflexivity|]. split; [reflexivity|].
  split; [reflexivity|].
  eexists. split; [reflexivity|]. split; [reflexivity|]. done.
Qed.

(** A text that holds the text of the end-of-word marker does not come
    back either: once the merges spell ["</w>"], [encode] skips that symbol
    as if it were the marker. *)
Lemma roundtrip_eow_text_fails :
  let corpus := [lit "a</w>"; lit "b</w>"] in
  let self' := snd (train new_tokenizer corpus 11) in
  train new_tokenizer corpus 11 = (Return tt, self')
  /\ PyDict.get EOW (vocab self') = Some 5
  /\ encode self' (lit "a</w>") = Return [10; 7]
  /\ decode self' [10; 7] = Return (lit "a")
  /\ normalize_ws (lit "a</w>") = lit "a</w>".
Proof. cbv zeta. repeat split; reflexivity. Qed.

(** * Further properties of the code *)

(** ** [_apply_merge] *)

Section apply_merge_more.

Lemma scan_head (p : Pair) b l h t :
  greedy_scan p (b :: l) = h :: t -> h = b \/ h = bigram_of p.
Proof.
  destruct l as [|c l].
  - intros [= <- _]. by left.
  - rewrite scan_cons2. case_bool_decide; intros [= <- _]; auto.
Qed.

Lemma app_self_l (a b : str) : a ++ b = a -> b = [].
Proof.
  intros H%(f_equal length). rewrite length_app in H.
  destruct b; [done|]. simpl in H. lia.
Qed.

Lemma app_self_r (a b : str) : a ++ b = b -> a = [].
Proof.
  intros H%(f_equal length). rewrite length_app in H.
  destruct a; [done|]. simpl in H. lia.
Qed.

Lemma scan_idempotent (p : Pair) l :
  fst p <> [] -> snd p <> [] ->
  greedy_scan p (greedy_scan p l) = greedy_scan p l.
Proof.
  destruct p as [p1 p2]. simpl. intros Hfst Hsnd.
  induction l as [| |a b l IH1 IH2] using scan_ind; [done|done|].
  rewrite scan_cons2. case_bool_decide as Hab.
  - destruct (greedy_scan (p1, p2) l) as [|h t] eqn:E; [done|].
    rewrite scan_cons2. rewrite bool_decide_eq_false_2.
    + by rewrite IH1.
    + unfold bigram_of. simpl. intros [= Hb _]. by apply app_self_l in Hb.
  - destruct (greedy_scan (p1, p2) (b :: l)) as [|h t] eqn:E; [done|].
    rewrite scan_cons2. rewrite bool_decide_eq_false_2.
    + by rewrite IH2.
    + intros [= -> Hh]. apply scan_head in E as [->|Hb]; [congruence|].
      unfold bigram_of in Hb. simpl in Hb. rewrite Hh in Hb.
      symmetry in Hb. by apply app_self_r in Hb.
Qed.

End apply_merge_more.

(** X1.  One merge step keeps the text: the symbols it returns spell, joined
    together, what the symbols it was given spell; there are no more of
    them than before; and each is one of the old symbols or the
    concatenation of the pair. *)
Theorem apply_merge_keeps_text (symbols : list str) (pair : Pair) :
  concat (_apply_merge symbols pair) = concat symbols
  /\ (length (_apply_merge symbols pair) <= length symbols)%nat
  /\ (forall s,
        In s (_apply_merge symbols pair) ->
        In s symbols \/ s = bigram_of pair).
Proof.
  rewrite apply_merge_scan. split_and!.
  - apply scan_concat.
  - apply scan_length_le.
  - intros s. apply scan_in.
Qed.

(** X2.  Where both symbols of the pair are non-empty, as all symbols of
    training and encoding are, one pass leaves no adjacent occurrence of
    the pair: the same merge applied again changes nothing. *)
Theorem apply_merge_idempotent (symbols : list str) (pair : Pair) :
  fst pair <> [] -> snd pair <> [] ->
  _apply_merge (_apply_merge symbols pair) pair = _apply_merge symbols pair.
Proof.
  intros Hfst Hsnd. rewrite !apply_merge_scan. by apply scan_idempotent.
Qed.

Lemma apply_merge_idempotent_witness :
  _apply_merge
    (_apply_merge [lit "a"; lit "a"; lit "a"; lit "a"; lit "a"]
       (lit "a", lit "a"))
    (lit "a", lit "a")
  = [lit "aa"; lit "aa"; lit "a"].
Proof.
  rewrite (apply_merge_idempotent
             [lit "a"; lit "a"; lit "a"; lit "a"; lit "a"]
             (lit "a", lit "a")); [reflexivity|done|done].
Defined.

(** ** [_get_stats] *)

Section stats_counts.

Lemma get_add {K} `{EqDecision K} (k k' : K) (n : Z) (c : PyDict.dict K Z) :
  default 0 (PyDict.get k' (PyDict.add k n c))
  = default 0 (PyDict.get k' c) + (if decide (k = k') then n else 0).
Proof.
  unfold PyDict.add. destruct (decide (k = k')) as [->|Hne].
  - rewrite get_set_eq. done.
  - rewrite get_set_ne by done. lia.
Qed.

Lemma stats_word_counts (word : Word) (freq : Z) idxs
  (stats : PyDict.dict Pair Z) (p : Pair) :
  default 0
    (PyDict.get p
       (fold_left
          (fun stats i =>
             let pair := pair_at word i in
             if has_eow pair then stats else PyDict.add pair freq stats)
          idxs stats))
  = default 0 (PyDict.get p stats)
    + (if has_eow p then 0
       else freq
            * Z.of_nat (length (filter (fun i => pair_at word i = p) idxs))).
Proof.
  revert stats. induction idxs as [|i idxs IH]; intros stats.
  - simpl. destruct (has_eow p); lia.
  - cbn [fold_left]. rewrite IH. clear IH. rewrite filter_cons.
    destruct (decide (pair_at word i = p)) as [Heq|Hne].
    + rewrite Heq. destruct (has_eow p) eqn:E; [lia|].
      rewrite get_add, decide_True by done. cbn [length]. lia.
    + destruct (has_eow (pair_at word i)); [done|].
      rewrite get_add, decide_False by done. lia.
Qed.

Lemma stats_counts_from (word_freqs : PyDict.dict Word Z)
  (stats : PyDict.dict Pair Z) (p : Pair) :
  default 0
    (PyDict.get p
       (fold_left
          (fun stats wf =>
             fold_left
               (fun stats i =>
                  let pair := pair_at (fst wf) i in
                  if has_eow pair then stats
                  else PyDict.add pair (snd wf) stats)
               (seq 0 (length (fst wf) - 1)) stats)
          word_freqs stats))
  = default 0 (PyDict.get p stats)
    + (if has_eow p then 0 else pair_total p word_freqs).
Proof.
  revert stats. induction word_freqs as [|[w f] l IH]; intros stats.
  - simpl. destruct (has_eow p); lia.
  - cbn [fold_left fst snd]. rewrite IH, stats_word_counts.
    unfold pair_total at 2. cbn [fold_right fst snd].
    fold (pair_total p l). unfold count_pair.
    destruct (has_eow p); lia.
Qed.

End stats_counts.

(** X3.  The count [_get_stats] holds for a pair is the sum, over the words
    of the table, of the word's frequency times the number of positions
    where the pair stands in the word (overlapping positions all count);
    a pair with the end-of-word marker in it has no count at all. *)
Theorem get_stats_counts (word_freqs : PyDict.dict Word Z) (pair : Pair) :
  (has_eow pair = false ->
   default 0 (PyDict.get pair (_get_stats word_freqs))
   = pair_total pair word_freqs)
  /\ (has_eow pair = true ->
      PyDict.get pair (_get_stats word_freqs) = None).
Proof.
  split.
  - intros He. unfold _get_stats. rewrite stats_counts_from, He. done.
  - intros He. apply get_None. rewrite in_get_stats.
    intros (? & ? & ? & _ & _ & _ & ?). congruence.
Qed.

Lemma get_stats_counts_witness :
  PyDict.get (lit "a", lit "a")
    (_get_stats [([lit "a"; lit "a"; lit "a"; EOW], 2);
                 ([lit "b"; lit "a"; lit "a"; EOW], 3)])
  = Some 7
  /\ pair_total (lit "a", lit "a")
       [([lit "a"; lit "a"; lit "a"; EOW], 2);
        ([lit "b"; lit "a"; lit "a"; EOW], 3)] = 7
  /\ PyDict.get (lit "a", EOW)
       (_get_stats [([lit "a"; lit "a"; lit "a"; EOW], 2);
                    ([lit "b"; lit "a"; lit "a"; EOW], 3)])
     = None.
Proof.
  split; [reflexivity|]. split.
  - rewrite <- (proj1 (get_stats_counts
                         [([lit "a"; lit "a"; lit "a"; EOW], 2);
                          ([lit "b"; lit "a"; lit "a"; EOW], 3)]
                         (lit "a", lit "a")) eq_refl).
    reflexivity.
  - apply (proj2 (get_stats_counts
                    [([lit "a"; lit "a"; lit "a"; EOW], 2);
                     ([lit "b"; lit "a"; lit "a"; EOW], 3)]
                    (lit "a", EOW))).
    reflexivity.
Defined.

(** ** The pair [train] picks *)

Section best_pair.

Lemma max_from_first (best : Pair) (c : Z) (rest : PyDict.dict Pair Z) :
  exists n v,
    ((best, c) :: rest) !! n = Some (max_from best c rest, v)
    /\ (forall m kv, ((best, c) :: rest) !! m = Some kv -> snd kv <= v)
    /\ (forall m kv,
          (m < n)%nat -> ((best, c) :: rest) !! m = Some kv -> snd kv < v).
Proof.
  revert best c. induction rest as [|[k v0] rest IH]; intros best c.
  - exists 0%nat, c. split_and!; [done| |intros; lia].
    intros [|m] kv; [|done]. intros [= <-]. simpl. lia.
  - simpl. destruct (Z.ltb_spec c v0) as [Hlt|Hge].
    + destruct (IH k v0) as (n & v & Hn & Hall & Hbefore).
      assert (v0 <= v) as Hv0 by apply (Hall 0%nat (k, v0) eq_refl).
      exists (S n), v. split_and!; [done| |].
      * intros [|m] kv; [intros [= <-]; simpl; lia|]. apply Hall.
      * intros [|m] kv Hm; [intros [= <-]; simpl; lia|].
        apply Hbefore. lia.
    + destruct (IH best c) as (n & v & Hn & Hall & Hbefore).
      assert (c <= v) as Hc by apply (Hall 0%nat (best, c) eq_refl).
      destruct n as [|n].
      * exists 0%nat, v. split_and!; [done| |intros; lia].
        injection Hn as _ <-.
        intros [|[|m]] kv; [intros [= <-]; simpl; lia
                           |intros [= <-]; simpl; lia|].
        apply (Hall (S m)).
      * exists (S (S n)), v. split_and!; [done| |].
        -- intros [|[|m]] kv; [intros [= <-]; simpl; lia
                              |intros [= <-]; simpl; lia|].
           apply (Hall (S m)).
        -- assert (c < v) as Hcv.
           { apply (Hbefore 0%nat (best, c)); [lia|done]. }
           intros [|[|m]] kv Hm; [intros [= <-]; simpl; lia
                                 |intros [= <-]; simpl; lia|].
           apply (Hbefore (S m)). lia.
Qed.

End best_pair.

(** X4.  The pair that line 62 takes from a non-empty statistics table
    stands in it with a count that no other pair exceeds, and every pair
    counted earlier (in insertion order) has a strictly smaller count:
    ties go to the pair that was counted first. *)
Theorem max_key_first_highest (stats : PyDict.dict Pair Z) (best : Pair) :
  max_key stats = Some best ->
  exists n count,
    stats !! n = Some (best, count)
    /\ (forall pair c, In (pair, c) stats -> c <= count)
    /\ (forall m pair c,
          (m < n)%nat -> stats !! m = Some (pair, c) -> c < count).
Proof.
  destruct stats as [|[k v] rest]; [done|]. intros [= <-].
  destruct (max_from_first k v rest) as (n & count & Hn & Hall & Hbefore).
  exists n, count. split_and!; [done| |].
  - intros pair c (m & Hm)%list_elem_of_In%list_elem_of_lookup.
    apply (Hall m (pair, c) Hm).
  - intros m pair c Hlt Hm. apply (Hbefore m (pair, c) Hlt Hm).
Qed.

Lemma max_key_first_highest_witness :
  exists n count,
    [((lit "a", lit "b"), 2); ((lit "b", lit "c"), 5);
     ((lit "c", lit "d"), 5)] !! n
    = Some ((lit "b", lit "c"), count)
    /\ (forall pair c,
          In (pair, c)
            [((lit "a", lit "b"), 2); ((lit "b", lit "c"), 5);
             ((lit "c", lit "d"), 5)] -> c <= count)
    /\ (forall m pair c,
          (m < n)%nat ->
          [((lit "a", lit "b"), 2); ((lit "b", lit "c"), 5);
           ((lit "c", lit "d"), 5)] !! m = Some (pair, c) -> c < count).
Proof.
  apply (max_key_first_highest
           [((lit "a", lit "b"), 2); ((lit "b", lit "c"), 5);
            ((lit "c", lit "d"), 5)] (lit "b", lit "c")).
  reflexivity.
Defined.

(** ** The word table: counting and merging *)

Section table_counts.

Lemma values_sum_set {K} `{EqDecision K} (k : K) (n : Z)
  (c : PyDict.dict K Z) :
  values_sum (PyDict.add k n c) = values_sum c + n.
Proof.
  unfold PyDict.add, values_sum.
  induction c as [|[k' v'] c IH]; simpl; [lia|].
  destruct (decide (k' = k)) as [->|Hne]; simpl; [lia|].
  simpl in IH. rewrite IH. lia.
Qed.

Lemma values_sum_scan_from (p : Pair) (l acc : PyDict.dict Word Z) :
  values_sum
    (fold_left
       (fun merged_vocab wf =>
          PyDict.add (greedy_scan p (fst wf)) (snd wf) merged_vocab)
       l acc)
  = values_sum acc + values_sum l.
Proof.
  revert acc. induction l as [|[w f] l IH]; intros acc; simpl.
  - unfold values_sum at 3. simpl. lia.
  - rewrite IH, values_sum_set. unfold values_sum at 4. simpl.
    fold (values_sum l). lia.
Qed.

Lemma symbols_of_inj (w1 w2 : str) : symbols_of w1 = symbols_of w2 -> w1 = w2.
Proof.
  unfold symbols_of. intros H%app_inv_tail.
  rewrite <- (concat_singletons w1), <- (concat_singletons w2). by rewrite H.
Qed.

Lemma count_line_get (words : list str) (acc : PyDict.dict Word Z) word :
  default 0
    (PyDict.get (symbols_of word)
       (fold_left
          (fun word_freqs w => PyDict.add (symbols_of w) 1 word_freqs)
          words acc))
  = default 0 (PyDict.get (symbols_of word) acc)
    + Z.of_nat (length (filter (fun w => w = word) words)).
Proof.
  revert acc. induction words as [|x words IH]; intros acc.
  - simpl. lia.
  - cbn [fold_left]. rewrite IH, get_add, filter_cons.
    destruct (decide (x = word)) as [->|Hne].
    + rewrite decide_True by done. cbn [length]. lia.
    + rewrite decide_False; [lia|]. by intros ?%symbols_of_inj.
Qed.

Lemma count_words_get_from corpus (acc : PyDict.dict Word Z) word :
  default 0 (PyDict.get (symbols_of word) (fold_left count_step corpus acc))
  = default 0 (PyDict.get (symbols_of word) acc) + occurrences word corpus.
Proof.
  unfold occurrences. revert acc.
  induction corpus as [|line corpus IH]; intros acc.
  - simpl. lia.
  - cbn [fold_left flat_map]. rewrite IH, count_step_fold, count_line_get.
    rewrite filter_app, length_app. lia.
Qed.

Lemma count_line_sum (words : list str) (acc : PyDict.dict Word Z) :
  values_sum
    (fold_left
       (fun word_freqs w => PyDict.add (symbols_of w) 1 word_freqs)
       words acc)
  = values_sum acc + Z.of_nat (length words).
Proof.
  revert acc. induction words as [|x words IH]; intros acc.
  - simpl. lia.
  - cbn [fold_left length]. rewrite IH, values_sum_set. lia.
Qed.

Lemma count_words_sum_from corpus (acc : PyDict.dict Word Z) :
  values_sum (fold_left count_step corpus acc)
  = values_sum acc + Z.of_nat (length (flat_map words_of corpus)).
Proof.
  revert acc. induction corpus as [|line corpus IH]; intros acc.
  - simpl. lia.
  - cbn [fold_left flat_map]. rewrite IH, count_step_fold, count_line_sum.
    rewrite length_app. lia.
Qed.

Lemma count_words_sum corpus :
  values_sum (count_words corpus)
  = Z.of_nat (length (flat_map words_of corpus)).
Proof.
  unfold count_words. rewrite count_words_sum_from.
  change (values_sum (@nil (list str * Z))) with 0. lia.
Qed.

Lemma merge_vocab_sum (pair : Pair) (word_freqs : PyDict.dict Word Z) :
  values_sum (_merge_vocab pair word_freqs) = values_sum word_freqs.
Proof.
  rewrite merge_vocab_scan, values_sum_scan_from.
  change (values_sum (@nil (list str * Z))) with 0. lia.
Qed.

Lemma merge_vocab_keys (pair : Pair) (word_freqs : PyDict.dict Word Z) word :
  In word (PyDict.keys (_merge_vocab pair word_freqs))
  <-> exists old,
        In old (PyDict.keys word_freqs) /\ word = _apply_merge old pair.
Proof.
  rewrite merge_vocab_scan, in_merge_vocab_from. simpl. split.
  - intros [[]|(old & Hold & ->)]. exists old. by rewrite apply_merge_scan.
  - intros (old & Hold & ->). right. exists old. by rewrite apply_merge_scan.
Qed.

End table_counts.

(** X5.  The word table that [train] builds counts the words of the corpus:
    the entry of a word, cut into characters with the marker at its end,
    holds the number of times the word occurs in the lines; a word that
    does not occur has no entry; and the counts add up to the number of
    words. *)
Theorem count_words_counts (corpus : list str) (word : str) :
  default 0 (PyDict.get (symbols_of word) (count_words corpus))
  = occurrences word corpus
  /\ (PyDict.get (symbols_of word) (count_words corpus) = None
      <-> occurrences word corpus = 0)
  /\ values_sum (count_words corpus)
     = Z.of_nat (length (flat_map words_of corpus)).
Proof.
  assert (default 0 (PyDict.get (symbols_of word) (count_words corpus))
          = occurrences word corpus) as Hget.
  { unfold count_words. rewrite count_words_get_from. simpl. lia. }
  split_and!.
  - exact Hget.
  - rewrite get_None, in_count_words. unfold occurrences. split.
    + intros Hn.
      destruct (filter (fun w => w = word) (flat_map words_of corpus))
        as [|w ws] eqn:E; [done|].
      destruct Hn.
      assert (w ∈ filter (fun w => w = word) (flat_map words_of corpus))
        as [-> Hin%list_elem_of_In%in_flat_map]%list_elem_of_filter
        by (rewrite E; left).
      destruct Hin as (line & ? & ?). eauto.
    + intros Hz (line & w & Hl & Hw & ->%symbols_of_inj).
      assert (w ∈ filter (fun w' => w' = w) (flat_map words_of corpus))
        as Hin.
      { apply list_elem_of_filter. split; [done|].
        apply list_elem_of_In, in_flat_map. eauto. }
      destruct (filter (fun w' => w' = w) (flat_map words_of corpus));
        [by apply elem_of_nil in Hin|]. simpl in Hz. lia.
  - apply count_words_sum.
Qed.

(** X6.  [_merge_vocab] keeps the total of the frequencies, the words of
    its table are the old words after one merge step, and each of them
    still spells the text of the word it came from. *)
Theorem merge_vocab_keeps_counts (pair : Pair)
  (word_freqs : PyDict.dict Word Z) :
  values_sum (_merge_vocab pair word_freqs) = values_sum word_freqs
  /\ (forall word,
        In word (PyDict.keys (_merge_vocab pair word_freqs))
        <-> exists old,
              In old (PyDict.keys word_freqs)
              /\ word = _apply_merge old pair
              /\ concat word = concat old).
Proof.
  split; [apply merge_vocab_sum|].
  intros word. rewrite merge_vocab_keys. split.
  - intros (old & Hold & ->). exists old.
    by rewrite apply_merge_scan, scan_concat.
  - intros (old & Hold & -> & _). eauto.
Qed.

(** ** Training and encoding cut words the same way *)

Section final_table.

Lemma merge_loop_table (fuel : nat) (vocab_size : Z) (ms : list Pair)
  (wf : PyDict.dict Word Z) (syms : gset str)
  (ms' : list Pair) (wf' : PyDict.dict Word Z) (syms' : gset str) :
  merge_loop fuel vocab_size ms wf syms = Some (ms', wf', syms') ->
  exists new,
    ms' = ms ++ new
    /\ (forall word,
          In word (PyDict.keys wf')
          <-> exists old, In old (PyDict.keys wf) /\ word = apply_merges new old)
    /\ values_sum wf' = values_sum wf.
Proof.
  assert (forall (ms : list Pair) (wf : PyDict.dict Word Z),
            exists new : list Pair,
              ms = ms ++ new
              /\ (forall word,
                    In word (PyDict.keys wf)
                    <-> exists old,
                          In old (PyDict.keys wf) /\ word = apply_merges new old)
              /\ values_sum wf = values_sum wf) as Hstop.
  { intros ms0 wf0. exists []. rewrite app_nil_r. split_and!; [done| |done].
    intros word. simpl. split; [eauto|]. by intros (old & ? & ->). }
  revert ms wf syms.
  induction fuel as [|fuel IH]; intros ms wf syms; simpl;
    destruct (Z.of_nat (size syms) <? vocab_size);
    try (intros [= <- <- <-]; apply Hstop);
    destruct (max_key (_get_stats wf)) as [best|] eqn:E;
    try (intros [= <- <- <-]; apply Hstop); try done.
  intros (new & -> & Hkeys & Hsum)%IH.
  exists (best :: new). rewrite <- app_assoc. split_and!; [done| |].
  - intros word. rewrite Hkeys. split.
    + intros (mid & Hmid & ->).
      apply merge_vocab_keys in Hmid as (old & Hold & ->).
      exists old. done.
    + intros (old & Hold & ->). exists (_apply_merge old best).
      split; [|done]. apply merge_vocab_keys. eauto.
  - rewrite Hsum. apply merge_vocab_sum.
Qed.

End final_table.

(** X7.  When [train] returns, the word table its loop ends with holds
    exactly the training words as [encode] cuts them: each word's marked
    symbols with the learned merges applied in order.  The frequencies of
    that table still add up to the number of words of the corpus. *)
Theorem training_segmentation (self self' : BPETokenizer)
  (corpus : list str) (vocab_size : Z) :
  train self corpus vocab_size = (Return tt, self') ->
  exists word_freqs' vocab_symbols',
    merge_loop (table_size (count_words corpus)) vocab_size []
      (count_words corpus)
      (initial_symbols (unk_token self) (count_words corpus))
    = Some (merges self', word_freqs', vocab_symbols')
    /\ (forall word,
          In word (PyDict.keys word_freqs')
          <-> exists line w,
                In line corpus /\ In w (words_of line)
                /\ word = apply_merges (merges self') (symbols_of w))
    /\ values_sum word_freqs'
       = Z.of_nat (length (flat_map words_of corpus)).
Proof.
  intros (_ & _ & ms' & wf' & syms' & Hloop & ->)%train_return_inv.
  exists wf', syms'. cbn [merges]. split; [done|].
  apply merge_loop_table in Hloop as (new & -> & Hkeys & Hsum). simpl.
  split.
  - intros word. rewrite Hkeys. split.
    + intros (old & (line & w & ? & ? & ->)%in_count_words & ->). eauto.
    + intros (line & w & ? & ? & ->). exists (symbols_of w).
      split; [|done]. apply in_count_words. eauto.
  - rewrite Hsum. apply count_words_sum.
Qed.

Lemma training_segmentation_witness :
  exists word_freqs' vocab_symbols',
    merge_loop (table_size (count_words [lit "hello world"])) 10 []
      (count_words [lit "hello world"])
      (initial_symbols (lit "<unk>") (count_words [lit "hello world"]))
    = Some (merges (snd (train new_tokenizer [lit "hello world"] 10)),
            word_freqs', vocab_symbols')
    /\ values_sum word_freqs' = 2.
Proof.
  destruct (training_segmentation new_tokenizer
              (snd (train new_tokenizer [lit "hello world"] 10))
              [lit "hello world"] 10 eq_refl)
    as (wf' & syms' & Hloop & _ & Hsum).
  exists wf', syms'. split; [exact Hloop|exact Hsum].
Defined.

(** ** Training again *)

(** X8.  [train] takes nothing from the merges and the vocabulary the
    tokenizer held before: two tokenizers with the same unknown token end
    the same way on the same corpus and size, and where they return they
    are left in the same state.  So training a second time on the same
    input changes nothing. *)
Theorem train_forgets_old_state (self1 self2 : BPETokenizer)
  (corpus : list str) (vocab_size : Z) :
  unk_token self1 = unk_token self2 ->
  fst (train self1 corpus vocab_size) = fst (train self2 corpus vocab_size)
  /\ (fst (train self1 corpus vocab_size) = Return tt ->
      snd (train self1 corpus vocab_size)
      = snd (train self2 corpus vocab_size)
      /\ train (snd (train self1 corpus vocab_size)) corpus vocab_size
         = train self1 corpus vocab_size).
Proof.
  intros Hunk.
  destruct (Z.lt_ge_cases vocab_size 2) as [Hlt|Hge].
  { rewrite !train_small by done. done. }
  destruct (decide (count_words corpus = [])) as [Hnil|Hne].
  { rewrite !train_empty by done. done. }
  destruct (train_returns self1 corpus vocab_size Hge Hne)
    as (ms1 & wf1 & syms1 & Hloop1 & Heq1).
  destruct (train_returns self2 corpus vocab_size Hge Hne)
    as (ms2 & wf2 & syms2 & Hloop2 & Heq2).
  rewrite <- Hunk, Hloop1 in Hloop2. injection Hloop2 as <- <- <-.
  rewrite Heq1, Heq2, <- Hunk. simpl. split; [done|]. intros _.
  split; [done|].
  destruct (train_returns
              {| unk_token := unk_token self1; merges := ms1;
                 vocab := enumerate_vocab
                            (ordered_vocab_of (unk_token self1) syms1) |}
              corpus vocab_size Hge Hne)
    as (ms3 & wf3 & syms3 & Hloop3 & Heq3).
  simpl in Hloop3. rewrite Hloop1 in Hloop3. injection Hloop3 as <- <- <-.
  by rewrite Heq3.
Qed.

Lemma train_forgets_old_state_witness :
  fst (train used_tokenizer [lit "hello world"] 10) = Return tt
  /\ snd (train used_tokenizer [lit "hello world"] 10)
     = snd (train new_tokenizer [lit "hello world"] 10).
Proof.
  destruct (train_forgets_old_state used_tokenizer new_tokenizer
              [lit "hello world"] 10 eq_refl) as [_ Hsame].
  split; [reflexivity|]. apply Hsame. reflexivity.
Defined.

(** ** [encode]: words, whitespace and ids *)

Section encode_more.

Lemma split_go_sep (cur a b : str) (c : N) :
  isspace c = true ->
  split_go cur (a ++ c :: b) = split_go cur a ++ split_go [] b.
Proof.
  intros Hc. revert cur. induction a as [|x a IH]; intros cur; simpl.
  - rewrite Hc. by destruct cur.
  - destruct (isspace x); [|apply IH]. destruct cur; by rewrite IH.
Qed.

Lemma split_sep (a b : str) (c : N) :
  isspace c = true -> split (a ++ c :: b) = split a ++ split b.
Proof. apply split_go_sep. Qed.

Lemma split_go_word (cur w : str) :
  Forall (fun c => isspace c = false) w -> cur ++ w <> [] ->
  split_go cur w = [cur ++ w].
Proof.
  intros Hw. revert cur. induction Hw as [|c w Hc _ IH]; intros cur Hne; simpl.
  - rewrite app_nil_r in *. by destruct cur.
  - rewrite Hc, IH; rewrite <- app_assoc; [done|]. by destruct cur.
Qed.

Lemma split_join (ws : list str) :
  Forall (fun w => w <> [] /\ Forall (fun c => isspace c = false) w) ws ->
  split (join [SPACE] ws) = ws.
Proof.
  induction 1 as [|w ws [Hw Hwn] Hall IH]; [done|].
  destruct ws as [|w2 ws].
  - simpl. unfold split. by rewrite split_go_word.
  - rewrite join_cons by done.
    change (w ++ [SPACE] ++ ?r) with (w ++ SPACE :: r).
    rewrite split_sep by done. rewrite IH. unfold split.
    by rewrite split_go_word.
Qed.

Lemma split_normalize (text : str) : split (normalize_ws text) = split text.
Proof.
  rewrite normalize_join. apply split_join.
  apply Forall_forall. intros w Hw%list_elem_of_In.
  by apply (split_words text).
Qed.

Lemma split_spaces (text : str) :
  Forall (fun c => isspace c = true) text -> split text = [].
Proof.
  intros Hs. by apply (split_go_spaces [] [] text).
Qed.

Lemma encode_words self (t1 t2 : str) :
  words_of t1 = words_of t2 -> encode self t1 = encode self t2.
Proof. intros Hw. unfold encode. by rewrite Hw. Qed.

(** The first symbol of a marked word still starts with the word-start
    marker after any merges. *)
Lemma scan_keeps_start (p : Pair) (r : str) (t : list str) :
  exists r' t', greedy_scan p ((WORD_START :: r) :: t) = (WORD_START :: r') :: t'.
Proof.
  destruct t as [|b t]; [by exists r, []|].
  rewrite scan_cons2. case_bool_decide as Heq; [|eauto].
  rewrite <- Heq. unfold bigram_of. simpl. eauto.
Qed.

Lemma apply_merges_keeps_start (ms : list Pair) (r : str) (t : list str) :
  exists r' t', apply_merges ms ((WORD_START :: r) :: t) = (WORD_START :: r') :: t'.
Proof.
  rewrite apply_merges_scan. revert r t.
  induction ms as [|p ms IH]; intros r t; cbn [fold_left]; [eauto|].
  destruct (scan_keeps_start p r t) as (r' & t' & ->). apply IH.
Qed.

Lemma word_symbols_first self (w : str) :
  exists s rest, word_symbols self (WORD_START :: w) = s :: rest.
Proof.
  unfold word_symbols, symbols_of. simpl.
  destruct (apply_merges_keeps_start (merges self) []
              (map (fun c => [c]) w ++ [EOW])) as (r' & t' & ->).
  rewrite filter_cons_True by done. eauto.
Qed.

Lemma words_of_marked text word :
  In word (words_of text) -> exists w, word = WORD_START :: w.
Proof.
  intros (c & w & ->)%word_has_start. eauto.
Qed.

Lemma flat_map_length_ge {A B} (f : A -> list B) (l : list A) :
  (forall x, In x l -> (1 <= length (f x))%nat) ->
  (length l <= length (flat_map f l))%nat.
Proof.
  induction l as [|x l IH]; intros Hall; simpl; [lia|].
  rewrite length_app. pose proof (Hall x ltac:(by left)).
  assert (length l <= length (flat_map f l))%nat
    by (apply IH; intros; apply Hall; by right).
  lia.
Qed.

Lemma flat_map_length_le {A B} (f : A -> list B) (g : A -> nat) (l : list A) :
  (forall x, In x l -> (length (f x) <= g x)%nat) ->
  (length (flat_map f l) <= list_sum (map g l))%nat.
Proof.
  induction l as [|x l IH]; intros Hall; simpl; [lia|].
  rewrite length_app. pose proof (Hall x ltac:(by left)).
  assert (length (flat_map f l) <= list_sum (map g l))%nat
    by (apply IH; intros; apply Hall; by right).
  lia.
Qed.

Lemma filter_length_le {A} (P : A -> Prop) `{forall x, Decision (P x)}
  (l : list A) : (length (filter P l) <= length l)%nat.
Proof.
  induction l as [|x l IH]; [done|]. rewrite filter_cons.
  destruct (decide (P x)); simpl; lia.
Qed.

Lemma apply_merges_length_le (ms : list Pair) (l : list str) :
  (length (apply_merges ms l) <= length l)%nat.
Proof.
  rewrite apply_merges_scan. revert l.
  induction ms as [|p ms IH]; intros l; cbn [fold_left]; [done|].
  etrans; [apply IH|]. apply scan_length_le.
Qed.

Lemma word_symbols_length self (word : str) :
  Forall (fun pair : Pair => snd pair <> EOW) (merges self) ->
  (length (word_symbols self word) <= length word)%nat.
Proof.
  intros Hms. unfold word_symbols, symbols_of.
  rewrite apply_merges_snoc by done. rewrite filter_app.
  rewrite filter_cons, decide_False by (intros ?; done).
  rewrite app_nil_r.
  etrans; [apply filter_length_le|].
  etrans; [apply apply_merges_length_le|]. by rewrite length_map.
Qed.

End encode_more.

(** X9.  [encode] works word by word and puts nothing between the words:
    where the unknown token has an id, the ids of two texts joined by a
    whitespace character are the ids of the first followed by the ids of
    the second. *)
Theorem encode_concat (self : BPETokenizer) (a b : str) (c : N)
  (unk_id : Z) :
  vocab self <> [] ->
  PyDict.get (unk_token self) (vocab self) = Some unk_id ->
  isspace c = true ->
  exists ids_a ids_b,
    encode self a = Return ids_a
    /\ encode self b = Return ids_b
    /\ encode self (a ++ c :: b) = Return (ids_a ++ ids_b).
Proof.
  intros Hne Hunk Hc.
  exists (encoded self unk_id a), (encoded self unk_id b).
  rewrite !(encode_ok self unk_id) by done. split_and!; [done|done|].
  f_equal. unfold encoded.
  rewrite !words_of_split, split_sep by done.
  by rewrite map_app, flat_map_app.
Qed.

Lemma encode_concat_witness :
  exists ids_a ids_b,
    encode (snd (train new_tokenizer [lit "hello world"] 10)) (lit "hello")
    = Return ids_a
    /\ encode (snd (train new_tokenizer [lit "hello world"] 10)) (lit "world")
       = Return ids_b
    /\ encode (snd (train new_tokenizer [lit "hello world"] 10))
         (lit "hello" ++ 9%N :: lit "world")
       = Return (ids_a ++ ids_b).
Proof.
  apply (encode_concat (snd (train new_tokenizer [lit "hello world"] 10))
           (lit "hello") (lit "world") 9%N 0).
  - vm_compute. discriminate.
  - vm_compute. reflexivity.
  - reflexivity.
Defined.

(** X10.  [encode] sees only the words of the text: texts with the same
    words, whatever whitespace separates or surrounds them, have the same
    result on any tokenizer, an error included.  So a text and its
    whitespace-normalized form encode alike. *)
Theorem encode_ignores_spacing (self : BPETokenizer) :
  (forall t1 t2, split t1 = split t2 -> encode self t1 = encode self t2)
  /\ (forall text, encode self (normalize_ws text) = encode self text).
Proof.
  assert (forall t1 t2, split t1 = split t2 -> encode self t1 = encode self t2)
    as Hsame.
  { intros t1 t2 Hs. apply encode_words. by rewrite !words_of_split, Hs. }
  split; [exact Hsame|].
  intros text. apply Hsame, split_normalize.
Qed.

Lemma encode_ignores_spacing_witness :
  encode (snd (train new_tokenizer [lit "hello world"] 10))
    (lit "  hello   world ")
  = encode (snd (train new_tokenizer [lit "hello world"] 10))
      (lit "hello world").
Proof.
  apply (proj1 (encode_ignores_spacing
                  (snd (train new_tokenizer [lit "hello world"] 10)))).
  reflexivity.
Defined.

(** X11.  On the tokenizer a normal return of [train] leaves, every id that
    [encode] returns is an id of the vocabulary: it lies in
    [0 .. len(vocab) - 1] and the inverse vocabulary of [decode] has it, so
    [decode] never falls back on the unknown token for an id [encode]
    made. *)
Theorem encode_ids_in_vocab (self self' : BPETokenizer) (corpus : list str)
  (vocab_size : Z) (text : str) (token_ids : list Z) :
  train self corpus vocab_size = (Return tt, self') ->
  encode self' text = Return token_ids ->
  Forall
    (fun idx =>
       0 <= idx < Z.of_nat (length (vocab self'))
       /\ exists token,
            PyDict.get idx (inverse_vocab self') = Some token
            /\ PyDict.get token (vocab self') = Some idx)
    token_ids.
Proof.
  intros [ordered Hnum]%train_numbered Henc.
  rewrite (numbered_encode self' ordered Hnum) in Henc.
  injection Henc as <-. rewrite encoded_map.
  apply Forall_forall. intros idx (s & <- & _)%list_elem_of_In%in_map_iff.
  assert (exists token, PyDict.get token (vocab self') = Some (token_id self' 0 s))
    as (token & Htok).
  { unfold token_id.
    destruct (PyDict.get (clean_symbol s) (vocab self')) as [i|] eqn:E.
    - by exists (clean_symbol s).
    - exists (unk_token self'). by apply (numbered_unk self' ordered). }
  pose proof Hnum as (Hnd & _ & Hv).
  assert (In token ordered) as Hin.
  { apply (numbered_in_keys self' ordered Hnum).
    apply get_Some_in in Htok. unfold PyDict.keys. apply in_map_iff.
    by exists (token, token_id self' 0 s). }
  destruct (numbered_get self' ordered Hnum token Hin)
    as (n & Hn & Hget & Hinv).
  assert (token_id self' 0 s = Z.of_nat n) as -> by congruence.
  apply lookup_lt_Some in Hn. split.
  - rewrite Hv. unfold enumerate_vocab. rewrite length_imap. lia.
  - exists token. split; [|done]. unfold token_of in Hinv.
    destruct (PyDict.get (Z.of_nat n) (inverse_vocab self')) as [t|] eqn:E.
    + simpl in Hinv. by subst t.
    + apply (numbered_inverse_None self' ordered Hnum) in E.
      rewrite Hv in E. unfold enumerate_vocab in E.
      rewrite length_imap in E. lia.
Qed.

Lemma encode_ids_in_vocab_witness :
  Forall
    (fun idx =>
       0 <= idx
       < Z.of_nat
           (length (vocab (snd (train new_tokenizer [lit "hello world"] 10))))
       /\ exists token,
            PyDict.get idx
              (inverse_vocab (snd (train new_tokenizer [lit "hello world"] 10)))
            = Some token
            /\ PyDict.get token
                 (vocab (snd (train new_tokenizer [lit "hello world"] 10)))
               = Some idx)
    [8; 0; 0; 0; 0; 5; 7; 0; 8; 0; 5; 0; 2; 0].
Proof.
  apply (encode_ids_in_vocab new_tokenizer
           (snd (train new_tokenizer [lit "hello world"] 10))
           [lit "hello world"] 10 (lit "unknown token")).
  - reflexivity.
  - reflexivity.
Defined.

(** X12.  On such a tokenizer [encode] returns at least one id for every
    word of the text and at most one for every character of a word, the
    word-start marker put before the word counted in. *)
Theorem encode_length_bounds (self self' : BPETokenizer) (corpus : list str)
  (vocab_size : Z) (text : str) (token_ids : list Z) :
  train self corpus vocab_size = (Return tt, self') ->
  encode self' text = Return token_ids ->
  (length (split text) <= length token_ids
   <= length (concat (split text)) + length (split text))%nat.
Proof.
  intros Htrain Henc.
  pose proof (trained_merges _ _ _ _ Htrain) as Hms.
  destruct (train_numbered _ _ _ _ Htrain) as [ordered Hnum].
  rewrite (numbered_encode self' ordered Hnum) in Henc.
  injection Henc as <-. rewrite encoded_map, length_map, words_of_split.
  split.
  - rewrite <- (length_map (cons WORD_START) (split text)) at 1.
    apply flat_map_length_ge.
    intros word (w & <- & _)%in_map_iff.
    destruct (word_symbols_first self' w) as (s & rest & ->). simpl. lia.
  - etrans.
    { apply (flat_map_length_le _ (fun word : str => length word)).
      intros word _. by apply word_symbols_length. }
    induction (split text) as [|w ws IH]; simpl; [lia|].
    rewrite length_app. lia.
Qed.

Lemma encode_length_bounds_witness :
  exists token_ids : list Z,
    encode (snd (train new_tokenizer [lit "hello world"] 10))
      (lit "unknown token") = Return token_ids
    /\ (length (split (lit "unknown token")) <= length token_ids
        <= length (concat (split (lit "unknown token")))
           + length (split (lit "unknown token")))%nat.
Proof.
  eexists. split; [reflexivity|].
  apply (encode_length_bounds new_tokenizer
           (snd (train new_tokenizer [lit "hello world"] 10))
           [lit "hello world"] 10 (lit "unknown token")).
  - reflexivity.
  - reflexivity.
Defined.

(** ** [decode]: the text it returns *)

Section decode_more.

Lemma in_lstrip (s : str) c : In c (lstrip s) -> In c s.
Proof.
  destruct (lstrip_split s) as (ws & Hs & _). intros Hc.
  rewrite Hs. apply in_app_iff. by right.
Qed.

Lemma in_rstrip (s : str) c : In c (rstrip s) -> In c s.
Proof.
  destruct (rstrip_split s) as (ws & Hs & _). intros Hc.
  rewrite Hs. apply in_app_iff. by left.
Qed.

Lemma in_replace (old new c : N) (s : str) :
  new <> old -> In c (replace old new s) -> c <> old.
Proof.
  intros Hne (x & <- & _)%in_map_iff.
  destruct (N.eqb_spec x old); done.
Qed.

Lemma rstrip_rstrip (s : str) : rstrip (rstrip s) = rstrip s.
Proof.
  destruct (rstrip_last s) as [->|(r & c & -> & Hc)]; [done|].
  by apply rstrip_snoc.
Qed.

Lemma lstrip_rstrip (s : str) :
  lstrip s = s -> lstrip (rstrip s) = rstrip s.
Proof.
  intros Hs. destruct s as [|c r]; [done|].
  simpl in Hs. destruct (isspace c) eqn:E.
  { pose proof (lstrip_length r) as Hl. rewrite Hs in Hl. simpl in Hl. lia. }
  destruct (rstrip_split (c :: r)) as (ws & Heq & Hws).
  destruct (rstrip (c :: r)) as [|x t] eqn:Er.
  - simpl in Heq. subst ws. apply Forall_inv in Hws. congruence.
  - injection Heq as <- _. by apply lstrip_id.
Qed.

Lemma lstrip_lstrip (s : str) : lstrip (lstrip s) = lstrip s.
Proof.
  destruct (lstrip_head s) as [->|(c & r & -> & Hc)]; [done|].
  by apply lstrip_id.
Qed.

End decode_more.

(** X13.  Whatever the tokenizer and the ids, the text [decode] returns
    holds no word-start marker, and it neither starts nor ends with
    whitespace: stripping it again on either side gives the same text. *)
Theorem decode_text_shape (self : BPETokenizer) (token_ids : list Z)
  (text : str) :
  decode self token_ids = Return text ->
  ~ In WORD_START text /\ lstrip text = text /\ rstrip text = text.
Proof.
  unfold decode. destruct (PyDict.is_empty (vocab self)); [done|].
  intros [= <-]. split_and!.
  - intros Hin%in_rstrip%in_lstrip. by apply in_replace in Hin.
  - apply lstrip_rstrip, lstrip_lstrip.
  - apply rstrip_rstrip.
Qed.

Lemma decode_text_shape_witness :
  ~ In WORD_START (lit "<unk> he")
  /\ lstrip (lit "<unk> he") = lit "<unk> he"
  /\ rstrip (lit "<unk> he") = lit "<unk> he".
Proof.
  apply (decode_text_shape
           {| unk_token := lit "<unk>"; merges := [];
              vocab := [(lit "<unk>", 0); ([WORD_START], 1); (lit "he", 2)] |}
           [1; 7; 1; 2; 1]).
  reflexivity.
Defined.

(** X14.  On the tokenizer a normal return of [train] leaves, [vocab] and
    the inverse vocabulary of [decode] undo each other: the piece for the
    id of a symbol is that symbol, and the symbol for an id in range has
    that id. *)
Theorem vocab_inverse_roundtrip (self self' : BPETokenizer)
  (corpus : list str) (vocab_size : Z) :
  train self corpus vocab_size = (Return tt, self') ->
  (forall symbol idx,
     PyDict.get symbol (vocab self') = Some idx ->
     PyDict.get idx (inverse_vocab self') = Some symbol)
  /\ (forall idx symbol,
        PyDict.get idx (inverse_vocab self') = Some symbol ->
        PyDict.get symbol (vocab self') = Some idx)
  /\ (forall idx,
        0 <= idx < Z.of_nat (length (vocab self')) ->
        exists symbol, PyDict.get idx (inverse_vocab self') = Some symbol).
Proof.
  intros [ordered Hnum]%train_numbered.
  pose proof Hnum as (Hnd & _ & Hv).
  assert (forall symbol idx,
            PyDict.get symbol (vocab self') = Some idx ->
            PyDict.get idx (inverse_vocab self') = Some symbol) as Hfwd.
  { intros symbol idx Hget.
    rewrite (numbered_inverse self' ordered Hnum).
    apply get_in_NoDup; [apply inverse_keys_NoDup|].
    apply in_map_iff. exists (symbol, idx). split; [done|].
    rewrite <- Hv. by apply get_Some_in. }
  split_and!.
  - exact Hfwd.
  - intros idx symbol Hget.
    rewrite (numbered_inverse self' ordered Hnum) in Hget.
    apply get_Some_in, in_map_iff in Hget as ([s i] & [= <- <-] & Hin).
    rewrite Hv. apply get_in_NoDup; [by rewrite keys_enumerate|done].
  - intros idx Hidx.
    destruct (PyDict.get idx (inverse_vocab self')) as [symbol|] eqn:E;
      [eauto|].
    by apply (numbered_inverse_None self' ordered Hnum) in E.
Qed.

Lemma vocab_inverse_roundtrip_witness :
  PyDict.get 9 (inverse_vocab (snd (train new_tokenizer [lit "hello world"] 10)))
  = Some (WORD_START :: lit "h").
Proof.
  apply (proj1 (vocab_inverse_roundtrip new_tokenizer
                  (snd (train new_tokenizer [lit "hello world"] 10))
                  [lit "hello world"] 10 eq_refl)).
  reflexivity.
Defined.

(** ** Edges of [encode] and [decode] *)

Section encode_edges.

Lemma encode_inner_raise self (o : option Z) (e : Error) symbols :
  fold_left
    (fun acc symbol =>
       match acc with
       | Return token_ids =>
           match o with
           | None => Raise (KeyError (unk_token self))
           | Some unk_id => Return (token_ids ++ [token_id self unk_id symbol])
           end
       | other => other
       end)
    symbols (Raise e)
  = Raise e.
Proof. induction symbols as [|s symbols IH]; simpl; [done|apply IH]. Qed.

Lemma encode_outer_raise self (o : option Z) (e : Error) words :
  fold_left
    (fun acc word =>
       fold_left
         (fun acc symbol =>
            match acc with
            | Return token_ids =>
                match o with
                | None => Raise (KeyError (unk_token self))
                | Some unk_id =>
                    Return (token_ids ++ [token_id self unk_id symbol])
                end
            | other => other
            end)
         (word_symbols self word) acc)
    words (Raise e)
  = Raise e.
Proof.
  induction words as [|w words IH]; simpl; [done|].
  by rewrite (encode_inner_raise self o), IH.
Qed.

Lemma encode_inner_none self (s : str) rest (ids : list Z) :
  fold_left
    (fun acc symbol =>
       match acc with
       | Return token_ids =>
           match @None Z with
           | None => Raise (KeyError (unk_token self))
           | Some unk_id => Return (token_ids ++ [token_id self unk_id symbol])
           end
       | other => other
       end)
    (s :: rest) (Return ids)
  = Raise (KeyError (unk_token self)).
Proof. simpl. apply (encode_inner_raise self None). Qed.

End encode_edges.

(** X15.  A tokenizer with a non-empty vocabulary returns the empty id list
    for the empty text and for any text of whitespace only, whether or not
    the unknown token is in the vocabulary, and the empty string for the
    empty id list. *)
Theorem encode_decode_nothing (self : BPETokenizer) :
  vocab self <> [] ->
  (forall text,
     Forall (fun c => isspace c = true) text -> encode self text = Return [])
  /\ decode self [] = Return [].
Proof.
  intros Hne.
  assert (PyDict.is_empty (vocab self) = false) as Hemp.
  { by destruct (vocab self). }
  split.
  - intros text Hs. unfold encode.
    rewrite Hemp, words_of_split, split_spaces by done. done.
  - unfold decode. by rewrite Hemp.
Qed.

Lemma encode_decode_nothing_witness :
  encode used_tokenizer (lit "   ") = Return []
  /\ decode used_tokenizer [] = Return [].
Proof.
  destruct (encode_decode_nothing used_tokenizer) as [Henc Hdec].
  - discriminate.
  - split; [|exact Hdec]. apply Henc. by repeat constructor.
Defined.

(** X16.  If the vocabulary is not empty but lacks the unknown token,
    [encode] raises [KeyError] for that token on every text with at least
    one word, even when all symbols of the text are in the vocabulary:
    line 88 looks the unknown token up before it looks at the symbol. *)
Theorem encode_missing_unknown (self : BPETokenizer) (text : str) :
  vocab self <> [] ->
  PyDict.get (unk_token self) (vocab self) = None ->
  split text <> [] ->
  encode self text = Raise (KeyError (unk_token self)).
Proof.
  intros Hne Hunk Hwords. unfold encode.
  assert (PyDict.is_empty (vocab self) = false) as ->.
  { by destruct (vocab self). }
  rewrite words_of_split, Hunk.
  destruct (split text) as [|w ws]; [done|].
  cbn [map fold_left].
  destruct (word_symbols_first self w) as (s & rest & ->).
  rewrite encode_inner_none. apply (encode_outer_raise self None).
Qed.

Lemma encode_missing_unknown_witness :
  encode {| unk_token := lit "<unk>"; merges := [];
            vocab := [([WORD_START], 0); (lit "a", 1)] |} (lit "a")
  = Raise (KeyError (lit "<unk>")).
Proof.
  apply (encode_missing_unknown
           {| unk_token := lit "<unk>"; merges := [];
              vocab := [([WORD_START], 0); (lit "a", 1)] |} (lit "a")).
  - discriminate.
  - reflexivity.
  - discriminate.
Defined.

(** ** The vocabulary holds what the merges need *)

Section merges_closed.

Lemma merge_loop_closed (fuel : nat) (vocab_size : Z) (ms : list Pair)
  (wf : PyDict.dict Word Z) (syms : gset str)
  (ms' : list Pair) (wf' : PyDict.dict Word Z) (syms' : gset str) :
  (forall word s,
     In word (PyDict.keys wf) -> In s word -> s <> EOW -> s ∈ syms) ->
  merge_loop fuel vocab_size ms wf syms = Some (ms', wf', syms') ->
  exists new,
    ms' = ms ++ new
    /\ syms ⊆ syms'
    /\ forall pair,
         In pair new ->
         fst pair ∈ syms' /\ snd pair ∈ syms' /\ bigram_of pair ∈ syms'.
Proof.
  assert (forall (ms : list Pair) (syms : gset str),
            exists new : list Pair,
              ms = ms ++ new /\ syms ⊆ syms
              /\ forall pair,
                   In pair new ->
                   fst pair ∈ syms /\ snd pair ∈ syms
                   /\ bigram_of pair ∈ syms) as Hstop.
  { intros ms0 syms0. exists []. rewrite app_nil_r. by split_and!. }
  revert ms wf syms.
  induction fuel as [|fuel IH]; intros ms wf syms Hinv; simpl;
    destruct (Z.of_nat (size syms) <? vocab_size);
    try (intros [= <- <- <-]; apply Hstop);
    destruct (max_key (_get_stats wf)) as [best|] eqn:E;
    try (intros [= <- <- <-]; apply Hstop); try done.
  intros Hloop.
  apply max_key_in, in_get_stats in E
    as (word & freq & i & Hin & Hi & Hbest & [Hfst Hsnd]%has_eow_false).
  assert (In word (PyDict.keys wf)) as Hword.
  { unfold PyDict.keys. apply in_map_iff. by exists (word, freq). }
  assert (fst best ∈ syms /\ snd best ∈ syms) as [Hf Hs].
  { rewrite Hbest in Hfst, Hsnd |- *. unfold pair_at in *. simpl in *.
    split; (apply (Hinv word); [done| |done]); apply nth_In; lia. }
  apply IH in Hloop as (new & -> & Hsub & Hnew).
  - exists (best :: new). rewrite <- app_assoc. split_and!; [done| |].
    + set_solver.
    + intros pair [<-|Hpair]; [|by apply Hnew].
      split_and!; set_solver.
  - intros word' s Hword' Hs' Hne. rewrite merge_vocab_scan in Hword'.
    apply in_merge_vocab_from in Hword' as [[]|(old & Hold & ->)].
    apply scan_in in Hs' as [Hs'| ->]; [|set_solver].
    apply elem_of_union. left. by apply (Hinv old).
Qed.

End merges_closed.

(** X17.  After a normal return of [train] the vocabulary holds everything
    the learned merges touch: both symbols of every merge and their
    concatenation have an id, so every symbol that [encode] can build from
    characters of the training words has one. *)
Theorem vocab_closed_under_merges (self self' : BPETokenizer)
  (corpus : list str) (vocab_size : Z) :
  train self corpus vocab_size = (Return tt, self') ->
  forall pair,
    In pair (merges self') ->
    In (fst pair) (PyDict.keys (vocab self'))
    /\ In (snd pair) (PyDict.keys (vocab self'))
    /\ In (bigram_of pair) (PyDict.keys (vocab self')).
Proof.
  intros (_ & _ & ms' & wf' & syms' & Hloop & ->)%train_return_inv pair Hpair.
  cbn [merges vocab] in *.
  apply merge_loop_closed in Hloop as (new & -> & _ & Hnew).
  - rewrite keys_enumerate, !in_ordered_vocab.
    destruct (Hnew pair Hpair) as (? & ? & ?). auto.
  - intros word s Hword Hs Hne. apply in_initial_symbols. right. eauto.
Qed.

Lemma vocab_closed_under_merges_witness :
  In [WORD_START]
    (PyDict.keys (vocab (snd (train new_tokenizer [lit "hello world"] 10))))
  /\ In (lit "h")
       (PyDict.keys (vocab (snd (train new_tokenizer [lit "hello world"] 10))))
  /\ In (WORD_START :: lit "h")
       (PyDict.keys (vocab (snd (train new_tokenizer [lit "hello world"] 10)))).
Proof.
  apply (vocab_closed_under_merges new_tokenizer
           (snd (train new_tokenizer [lit "hello world"] 10))
           [lit "hello world"] 10 eq_refl ([WORD_START], lit "h")).
  vm_compute. by left.
Defined.
